(** * Loan query system: intent extraction and the pipeline interpreter

    A shallow embedding of [src/agents/query_agent.py] (the rule-based
    translator [_parse_filters] / [_build_pipeline] and the two tool entry
    points [_find_loans] / [_aggregate_loans]) and of [src/db/mock_db.py]
    (the record store with [find] and [aggregate]).

    Conventions of the embedding.
    - Python [str] is [string]; the regular-expression engine and the
      text lemmas work on [list ascii].  The character classes ([\s],
      [\w], [\d], [str.strip]) and the letter case ([lower], [upper],
      [capitalize], [re.IGNORECASE]) are those of ASCII.  Python's are
      those of Unicode, and the two agree on a text of ASCII characters
      ([isascii]): a statement that depends on the class or on the case
      of a character is made for such a text.
    - A scalar of a record is a string, an int, a float, a bool or None,
      and [py_eq] is Python's [==] on them.
    - A dict that is only looked up by key is a [gmap]; a dict that the
      code walks with [.items()] while it may raise is an insertion-ordered
      association list.
    - A Python exception is a value of [pyexn]; code that may raise
      returns [result].
    - The store is modelled twice: as the list of its records where only
      their contents matter, and in [Obj] as list and dict objects on a
      heap, where the question is what a call changes and what it
      shares. *)

From Stdlib Require Import Ascii String DecimalString DecimalN DecimalFacts.
From Stdlib Require Import SpecFloat.
From stdpp Require Import gmap strings list fin_maps.

Open Scope string_scope.
Open Scope list_scope.
Open Scope nat_scope.

(** ** Python text primitives *)

Module Py.

Definition code (a : ascii) : nat := nat_of_ascii a.

Definition between (lo hi : nat) (a : ascii) : bool :=
  (lo <=? code a)%nat && (code a <=? hi)%nat.

(** The classes below are Python's on ASCII characters.

    [str.isspace] / [\s]: TAB..CR, FS..US and the blank. *)
Definition is_space (a : ascii) : bool :=
  between 9 13 a || between 28 32 a.

Definition is_upper (a : ascii) : bool := between 65 90 a.
Definition is_lower (a : ascii) : bool := between 97 122 a.
Definition is_alpha (a : ascii) : bool := is_upper a || is_lower a.

(** [\d] *)
Definition is_digit (a : ascii) : bool := between 48 57 a.

(** [\w] *)
Definition is_word (a : ascii) : bool :=
  is_alpha a || is_digit a || (code a =? 95)%nat.

(** [[A-Za-z\s]] *)
Definition is_name_char (a : ascii) : bool := is_alpha a || is_space a.

(** The case of an ASCII letter. *)
Definition lower_char (a : ascii) : ascii :=
  if is_upper a then ascii_of_nat (code a + 32) else a.

Definition upper_char (a : ascii) : ascii :=
  if is_lower a then ascii_of_nat (code a - 32) else a.

Definition chars (s : string) : list ascii := list_ascii_of_string s.
Definition text (l : list ascii) : string := string_of_list_ascii l.

(** [s.isascii()] *)
Definition isascii (s : string) : bool :=
  forallb (λ a, (code a <? 128)%nat) (chars s).

(** [s.lower()], [s.upper()] *)
Definition lower (s : string) : string := text (map lower_char (chars s)).
Definition upper (s : string) : string := text (map upper_char (chars s)).

(** [s.capitalize()]: first character upper-cased, the rest lower-cased. *)
Definition capitalize (s : string) : string :=
  match chars s with
  | [] => ""
  | a :: l => text (upper_char a :: map lower_char l)
  end.

Fixpoint lstrip (l : list ascii) : list ascii :=
  match l with
  | a :: l' => if is_space a then lstrip l' else l
  | [] => []
  end.

(** [s.strip()] *)
Definition strip_chars (l : list ascii) : list ascii :=
  reverse (lstrip (reverse (lstrip l))).
Definition strip (s : string) : string := text (strip_chars (chars s)).

Fixpoint starts_with (p l : list ascii) : bool :=
  match p, l with
  | [], _ => true
  | c :: p', a :: l' => bool_decide (c = a) && starts_with p' l'
  | _ :: _, [] => false
  end.

Fixpoint contains_chars (p l : list ascii) : bool :=
  starts_with p l ||
  match l with
  | [] => false
  | _ :: l' => contains_chars p l'
  end.

(** [needle in hay] *)
Definition contains (needle hay : string) : bool :=
  contains_chars (chars needle) (chars hay).

(** [int(s)] for a string of decimal digits. *)
Definition int_of_digits (s : string) : N :=
  match NilEmpty.uint_of_string s with
  | Some d => N.of_uint d
  | None => 0%N
  end.

(** [str(n)] for a natural number. *)
Definition str_of_int (n : N) : string :=
  NilZero.string_of_uint (N.to_uint n).

End Py.

(** ** Regular expressions as [re.search] runs them

    The four patterns of the extractor use literal text, character
    classes, greedy [+] and [{n}] on a class, alternation, capturing
    groups and [$].  [exec] is the backtracking matcher: alternatives are
    tried left to right, a greedy repetition tries the longest run first
    and gives characters back one at a time. *)

Module Re.
Import Py.

Inductive regex : Type :=
| Lit (l : list ascii)
| Set1 (c : ascii -> bool)
| Plus (c : ascii -> bool)
| Rep (n : nat) (c : ascii -> bool)
| Alt (r1 r2 : regex)
| Seq (r1 r2 : regex)
| Group (i : nat) (r : regex)
| Eos.

(** The groups of a match object: [m.group(i)]. *)
Abbreviation captures := (gmap nat (list ascii)).

(** [ic] is the flag [re.IGNORECASE], as it acts on ASCII text. *)
Definition same_char (ic : bool) (c a : ascii) : bool :=
  if ic then bool_decide (lower_char c = lower_char a)
  else bool_decide (c = a).

Definition in_class (ic : bool) (c : ascii -> bool) (a : ascii) : bool :=
  c a || (ic && (c (lower_char a) || c (upper_char a))).

Fixpoint lit_rest (ic : bool) (l s : list ascii) : option (list ascii) :=
  match l, s with
  | [], _ => Some s
  | c :: l', a :: s' => if same_char ic c a then lit_rest ic l' s' else None
  | _ :: _, [] => None
  end.

Fixpoint rep_rest (n : nat) (ok : ascii -> bool) (s : list ascii)
  : option (list ascii) :=
  match n, s with
  | O, _ => Some s
  | S n', a :: s' => if ok a then rep_rest n' ok s' else None
  | S _, [] => None
  end.

Fixpoint plus_then {R : Type} (ok : ascii -> bool) (s : list ascii)
    (k : list ascii -> option R) : option R :=
  match s with
  | a :: s' =>
      if ok a then
        match plus_then ok s' k with
        | Some m => Some m
        | None => k s'
        end
      else None
  | [] => None
  end.

(** [$] without [re.MULTILINE]: the end of the text, or just before a
    final line feed. *)
Definition at_end (s : list ascii) : bool :=
  match s with
  | [] => true
  | [a] => bool_decide (a = "010"%char)
  | _ => false
  end.

Fixpoint exec (ic : bool) (r : regex) (s : list ascii) (caps : captures)
    (k : list ascii -> captures -> option captures) : option captures :=
  match r with
  | Lit l =>
      match lit_rest ic l s with
      | Some s' => k s' caps
      | None => None
      end
  | Set1 c =>
      match s with
      | a :: s' => if in_class ic c a then k s' caps else None
      | [] => None
      end
  | Plus c => plus_then (in_class ic c) s (fun s' => k s' caps)
  | Rep n c =>
      match rep_rest n (in_class ic c) s with
      | Some s' => k s' caps
      | None => None
      end
  | Alt r1 r2 =>
      match exec ic r1 s caps k with
      | Some m => Some m
      | None => exec ic r2 s caps k
      end
  | Seq r1 r2 => exec ic r1 s caps (fun s1 c1 => exec ic r2 s1 c1 k)
  | Group i r1 =>
      exec ic r1 s caps
        (fun s' c' => k s' (<[i := take (length s - length s') s]> c'))
  | Eos => if at_end s then k s caps else None
  end.

(** A match anchored at the start of [s]. *)
Definition match_here (ic : bool) (r : regex) (s : list ascii)
  : option captures :=
  exec ic r s ∅ (fun _ c => Some c).

(** Leftmost match: every start position from 0 to [len(s)]. *)
Fixpoint search_chars (ic : bool) (r : regex) (s : list ascii)
  : option captures :=
  match match_here ic r s with
  | Some m => Some m
  | None =>
      match s with
      | [] => None
      | _ :: s' => search_chars ic r s'
      end
  end.

(** [re.search(pattern, string, flags)] *)
Definition search (r : regex) (q : string) (ic : bool) : option captures :=
  search_chars ic r (chars q).

(** [m.group(i)] *)
Definition group (m : captures) (i : nat) : string :=
  text (default [] (m !! i)).

End Re.

(** ** Data model *)

(** A scalar held by a record or asked for by a filter: a string (also a
    date as ISO text), an int, a float (an IEEE 754 binary64 number, as
    [spec_float] writes it), a bool or None. *)
Inductive value : Type :=
| VStr (s : string)
| VInt (n : Z)
| VFloat (f : spec_float)
| VBool (b : bool)
| VNone.

#[global] Instance spec_float_eq_dec : EqDecision spec_float.
Proof. solve_decision. Defined.

#[global] Instance value_eq_dec : EqDecision value.
Proof. solve_decision. Defined.

(** *** Python's [==] and [!=] on scalars

    Numbers are compared by the number they stand for, whatever their
    type: an int, a bool (an int in Python: 0 or 1) and a float are equal
    when they are the same number, compared exactly.  [nan] is no number
    and equals nothing, itself included.  A string equals only the same
    string and None only None. *)

(** The number [m * 2 ^ e], or an infinity. *)
Inductive number : Type :=
| Finite (m e : Z)
| Infinite (negative : bool).

Definition number_of (v : value) : option number :=
  match v with
  | VInt n => Some (Finite n 0)
  | VBool b => Some (Finite (if b then 1 else 0) 0)
  | VFloat (S754_zero _) => Some (Finite 0 0)
  | VFloat (S754_infinity s) => Some (Infinite s)
  | VFloat (S754_finite s m e) =>
      Some (Finite (if s then Z.neg m else Z.pos m) e)
  | VFloat S754_nan | VStr _ | VNone => None
  end.

Definition number_compare (a b : number) : comparison :=
  match a, b with
  | Finite m1 e1, Finite m2 e2 =>
      let e := Z.min e1 e2 in
      (m1 * 2 ^ (e1 - e) ?= m2 * 2 ^ (e2 - e))%Z
  | Infinite s1, Infinite s2 =>
      match s1, s2 with
      | true, false => Lt
      | false, true => Gt
      | _, _ => Eq
      end
  | Infinite s, Finite _ _ => if s then Lt else Gt
  | Finite _ _, Infinite s => if s then Gt else Lt
  end.

(** [x == y] *)
Definition py_eq (x y : value) : bool :=
  match x, y with
  | VStr a, VStr b => bool_decide (a = b)
  | VNone, VNone => true
  | _, _ =>
      match number_of x, number_of y with
      | Some a, Some b =>
          match number_compare a b with Eq => true | _ => false end
      | _, _ => false
      end
  end.

(** [x != y] *)
Definition py_ne (x y : value) : bool := negb (py_eq x y).

(** A record of the store: field name to scalar. *)
Abbreviation record := (gmap string value).

(** An insertion-ordered dict with string keys. *)
Abbreviation pydict V := (list (string * V)).

(** [d[k] = v] on an insertion-ordered dict. *)
Fixpoint dict_set {V : Type} (k : string) (v : V) (d : pydict V) : pydict V :=
  match d with
  | [] => [(k, v)]
  | (k', v') :: d' =>
      if decide (k = k') then (k, v) :: d' else (k', v') :: dict_set k v d'
  end.

(** [d.get(k)] on an insertion-ordered dict. *)
Fixpoint dict_get {V : Type} (k : string) (d : pydict V) : option V :=
  match d with
  | [] => None
  | (k', v) :: d' => if decide (k = k') then Some v else dict_get k d'
  end.

(** The value of a field in a [$match] stage: a scalar (equality) or a
    dict from operator symbol to operand. *)
Inductive condition : Type :=
| Direct (v : value)
| Ops (ops : pydict value).

(** The [_id] of a [$group] stage. *)
Inductive group_id : Type :=
| IdNone
| IdField (f : string)
| IdFields (fs : pydict string).

(** A pipeline stage, by the first of the keys [$match], [$group],
    [$project] that the stage dict holds; [Other] is a dict with none of
    them. *)
Inductive stage : Type :=
| Match (conds : pydict condition)
| Group (_id : group_id) (aggs : pydict (pydict value))
| Project (fields : pydict value)
| Other.

Definition is_match (s : stage) : bool :=
  match s with Match _ => true | _ => false end.

(** ** The intent extractor ([QueryAgent]) *)

Module Patterns.
Import Py Re.

Infix "⋅" := Seq (at level 41, right associativity).

(** [r"for\s+([A-Za-z\s]+)(?:\?|$|\s)"] *)
Definition user_name_re : regex :=
  Lit (chars "for") ⋅ Plus is_space ⋅ Group 1 (Plus is_name_char)
    ⋅ Alt (Lit (chars "?")) (Alt Eos (Set1 is_space)).

(** [r"in\s+(\w+)\s+region"] *)
Definition region_re : regex :=
  Lit (chars "in") ⋅ Plus is_space ⋅ Group 1 (Plus is_word)
    ⋅ Plus is_space ⋅ Lit (chars "region").

(** [r"in\s+([A-Z]{3})"] *)
Definition currency_re : regex :=
  Lit (chars "in") ⋅ Plus is_space ⋅ Group 1 (Rep 3 is_upper).

(** [r"(before|after)\s+(\d{4})"] *)
Definition date_re : regex :=
  Group 1 (Alt (Lit (chars "before")) (Lit (chars "after")))
    ⋅ Plus is_space ⋅ Group 2 (Rep 4 is_digit).

End Patterns.

Import Py Patterns.

Definition IGNORECASE : bool := true.
Definition NOFLAG : bool := false.

(** The [sex] rule shared by both extractors: the female terms are
    checked first. *)
Definition sex_of (query_string : string) : option string :=
  if contains "women" (lower query_string)
     || contains "female" (lower query_string) then Some "Female"
  else if contains "men" (lower query_string)
          || contains "male" (lower query_string) then Some "Male"
  else None.

Definition _parse_filters (query_string : string) : gmap string value :=
  let filters : gmap string value := ∅ in
  let filters :=
    match Re.search user_name_re query_string NOFLAG with
    | Some m => <["user_name" := VStr (strip (Re.group m 1))]> filters
    | None => filters
    end in
  let filters :=
    match Re.search region_re query_string IGNORECASE with
    | Some m => <["region" := VStr (capitalize (Re.group m 1))]> filters
    | None => filters
    end in
  let filters :=
    match Re.search currency_re query_string NOFLAG with
    | Some m => <["currency" := VStr (upper (Re.group m 1))]> filters
    | None => filters
    end in
  match sex_of query_string with
  | Some s => <["sex" := VStr s]> filters
  | None => filters
  end.

(** [f"{year}-01-01"] with [year = int(group)] *)
Definition first_of_year (year : string) : string :=
  str_of_int (int_of_digits year) +:+ "-01-01".

Definition count_stage : stage :=
  Group IdNone [("count", [("$sum", VInt 1)])].

(** The [$match] dict that [_build_pipeline] fills before it looks at the
    aggregation words. *)
Definition match_stage_of (query_string : string) : pydict condition :=
  let match_stage : pydict condition := [] in
  let match_stage :=
    match Re.search region_re query_string IGNORECASE with
    | Some m =>
        dict_set "region" (Direct (VStr (capitalize (Re.group m 1))))
          match_stage
    | None => match_stage
    end in
  let match_stage :=
    match Re.search currency_re query_string NOFLAG with
    | Some m =>
        dict_set "currency" (Direct (VStr (upper (Re.group m 1)))) match_stage
    | None => match_stage
    end in
  let match_stage :=
    match sex_of query_string with
    | Some s => dict_set "sex" (Direct (VStr s)) match_stage
    | None => match_stage
    end in
  match Re.search date_re query_string IGNORECASE with
  | Some m =>
      let comparison := Re.group m 1 in
      let year := Re.group m 2 in
      if decide (lower comparison = "before") then
        dict_set "disbursed_date"
          (Ops [("$lt", VStr (first_of_year year))]) match_stage
      else
        dict_set "disbursed_date"
          (Ops [("$gte", VStr (first_of_year year))]) match_stage
  | None => match_stage
  end.

Definition _build_pipeline (query_string : string) : list stage :=
  let pipeline : list stage := [] in
  let match_stage := match_stage_of query_string in
  let pipeline :=
    match match_stage with
    | [] => pipeline
    | _ :: _ => pipeline ++ [Match match_stage]
    end in
  let q := lower query_string in
  let pipeline :=
    if contains "average" q || contains "avg" q then
      pipeline ++ [Group IdNone [("average_loan", [("$avg", VStr "$loan_amount")])]]
    else if contains "total" q || contains "sum" q then
      let field := if contains "pending" q then "pending" else "loan_amount" in
      pipeline ++ [Group IdNone [("total_amount", [("$sum", VStr ("$" +:+ field))])]]
    else if contains "group" q then
      let group_fields : pydict string := [] in
      let group_fields :=
        if contains "region" q then dict_set "region" "$region" group_fields
        else group_fields in
      let group_fields :=
        if contains "gender" q || contains "sex" q
        then dict_set "sex" "$sex" group_fields
        else group_fields in
      match group_fields with
      | [] => pipeline
      | _ :: _ =>
          pipeline ++
            [Group (IdFields group_fields)
               [("total_amount", [("$sum", VStr "$loan_amount")]);
                ("count", [("$sum", VInt 1)])]]
      end
    else pipeline in
  if (length pipeline =? 0)%nat
     || ((length pipeline =? 1)%nat && from_option is_match false (head pipeline))
  then pipeline ++ [count_stage]
  else pipeline.


(** ** Exceptions *)

Inductive pyexn : Type :=
| KeyError (what : string)
| TypeError (what : string)
| ValueError (what : string).

Inductive result (A : Type) : Type :=
| Ok (a : A)
| Raise (e : pyexn).
Arguments Ok {A} a.
Arguments Raise {A} e.

#[global] Instance result_ret : MRet result := λ A a, Ok a.
#[global] Instance result_bind : MBind result :=
  λ A B f r, match r with Ok a => f a | Raise e => Raise e end.

Definition raised {A : Type} (r : result A) : bool :=
  match r with Raise _ => true | Ok _ => false end.

(** A [for] loop whose body may raise. *)
Fixpoint for_each {A S : Type} (body : S → A → result S) (l : list A) (s : S)
  : result S :=
  match l with
  | [] => Ok s
  | x :: l' => s' ← body s x; for_each body l' s'
  end.

(** ** The part of pandas that [aggregate] calls

    A frame keeps its column labels and its rows; a field that a row does
    not hold is the missing value NaN.  A cell is the Python object that
    the record holds, which is how pandas keeps a column of strings;
    pandas keeps a column of numbers in an array of machine numbers,
    where an int next to a float or to a missing cell is stored as a
    float, and where an ordering against a string is refused for the
    column as a whole rather than at its first number.  What is stated
    below about the value of a cell is stated for strings. *)

Module Pd.

(** A cell: [None] is NaN. *)
Abbreviation cell := (option value).

Record DataFrame : Type := {
  columns : list string;
  rows : list record
}.

(** [pd.DataFrame(data)] for a list of dicts: the columns are the union
    of the keys (their order plays no part in what [aggregate] does). *)
Definition of_records (data : list record) : DataFrame :=
  {| columns := remove_dups (data ≫= λ r, (map_to_list r).*1);
     rows := data |}.

(** [df[field]] *)
Definition getitem (df : DataFrame) (field : string) : result (list cell) :=
  if bool_decide (field ∈ columns df)
  then Ok (map (λ r : record, r !! field) (rows df))
  else Raise (KeyError field).

Inductive cmp : Type := EQ | GT | GE | LT | LE.

(** The missing values: NaN and None. *)
Definition is_null (v : value) : bool :=
  match v with
  | VNone | VFloat S754_nan => true
  | _ => false
  end.

(** One element of [series <op> value], the cells compared as the Python
    objects they are.  A missing value on either side compares false;
    [==] is Python's; an ordering is that of two numbers or of two
    strings, and between a string and a number it raises. *)
Definition compare_cell (op : cmp) (c : cell) (v : value) : result bool :=
  match c with
  | None => Ok false
  | Some x =>
      if is_null x || is_null v then Ok false
      else
        match op with
        | EQ => Ok (py_eq x v)
        | _ =>
            match x, v with
            | VStr a, VStr b =>
                Ok match op with
                   | GT => String.ltb b a | GE => String.leb b a
                   | LT => String.ltb a b | _ => String.leb a b
                   end
            | _, _ =>
                match number_of x, number_of v with
                | Some a, Some b =>
                    Ok match op, number_compare a b with
                       | GT, Gt | GE, (Gt | Eq) | LT, Lt | LE, (Lt | Eq) => true
                       | _, _ => false
                       end
                | _, _ => Raise (TypeError "ordering between str and a number")
                end
            end
        end
  end.

Fixpoint compare (op : cmp) (s : list cell) (v : value)
  : result (list bool) :=
  match s with
  | [] => Ok []
  | c :: s' => b ← compare_cell op c v; m ← compare op s' v; Ok (b :: m)
  end.

Fixpoint keep {A : Type} (l : list A) (mask : list bool) : list A :=
  match l, mask with
  | x :: l', b :: mask' => if b then x :: keep l' mask' else keep l' mask'
  | _, _ => []
  end.

(** [df[mask]] *)
Definition select (df : DataFrame) (mask : list bool) : DataFrame :=
  {| columns := columns df; rows := keep (rows df) mask |}.

(** [df[df[field] <op> value]] *)
Definition where_ (df : DataFrame) (field : string) (op : cmp) (v : value)
  : result DataFrame :=
  s ← getitem df field; mask ← compare op s v; Ok (select df mask).

(** [df[fields]] for a list of labels. *)
Definition project (df : DataFrame) (fields : list string)
  : result DataFrame :=
  match filter (λ f, f ∉ columns df) fields with
  | [] =>
      Ok {| columns := fields;
            rows := map (λ r : record,
                      filter (λ kv, kv.1 ∈ fields) r) (rows df) |}
  | f :: _ => Raise (KeyError f)
  end.

(** [df.to_dict('records')]: one dict per row, with every column.  The
    rows are read off the columns side by side, so a frame without
    columns gives no row at all. *)
Definition to_dict_records (df : DataFrame) : list (gmap string cell) :=
  match columns df with
  | [] => []
  | _ :: _ =>
      map (λ r : record, list_to_map (map (λ c, (c, r !! c)) (columns df)))
        (rows df)
  end.

(** A grouping key names a column; [None] is the name of the default
    index. *)
Definition is_label (df : DataFrame) (key : option string) : bool :=
  match key with
  | None => true
  | Some c => bool_decide (c ∈ columns df)
  end.

Definition resolve_key (df : DataFrame) (_ : unit) (key : option string)
  : result unit :=
  match key with
  | Some c =>
      if bool_decide (c ∈ columns df) then Ok () else Raise (KeyError c)
  | None =>
      (* [None] is mapped over the row index as if it were a function *)
      match rows df with
      | [] => Ok ()
      | _ :: _ => Raise (TypeError "'NoneType' object is not callable")
      end
  end.

(** [df.groupby(keys)]: when there are as many keys as rows and some key
    is not a label, the list itself is taken as the array of group
    labels; otherwise every key is resolved in turn. *)
Definition groupby (df : DataFrame) (keys : list (option string))
  : result unit :=
  if (length keys =? length (rows df)) && negb (forallb (is_label df) keys)
  then Ok ()
  else
    _ ← for_each (resolve_key df) keys ();
    match keys, rows df with
    | [], _ :: _ => Raise (ValueError "No group keys passed!")
    | _, _ => Ok ()
    end.

(** A keyword argument of [.agg]: a bare string or a pair. *)
Inductive agg_arg : Type :=
| AggStr (s : string)
| AggPair (column : string) (aggfunc : value).

Definition pair_column (a : agg_arg) : option string :=
  match a with AggPair c _ => Some c | AggStr _ => None end.

(** The checks of [.agg] with keyword arguments before anything is
    computed: named aggregation needs at least one keyword, every keyword
    a pair [(column, aggfunc)], and every such column in the frame. *)
Definition check_named_agg (df : DataFrame) (kwargs : pydict agg_arg)
  : result unit :=
  match kwargs with
  | [] => Raise (TypeError "Must provide 'func' or tuples of '(column, aggfunc)'")
  | _ :: _ =>
      match mapM (λ kv, pair_column kv.2) kwargs with
      | None =>
          Raise (TypeError "Must provide 'func' or tuples of '(column, aggfunc)'")
      | Some cols =>
          match filter (λ c, c ∉ columns df) cols with
          | [] => Ok ()
          | c :: _ => Raise (KeyError c)
          end
      end
  end.

End Pd.

(** ** The record store ([LoanDatabase]) *)

Record LoanDatabase : Type := { data : list record }.

(** The inner loop of [find] over [filter_dict.items()]. *)
Definition record_matches (record : record) (filter_dict : gmap string value)
  : bool :=
  forallb
    (λ '(key, value),
       match record !! key with
       | None => false
       | Some v => negb (py_ne v value)
       end)
    (map_to_list filter_dict).

Definition find (self : LoanDatabase) (filter_dict : option (gmap string value))
  : list record :=
  match filter_dict with
  | None => data self
  | Some filter_dict =>
      filter (λ record, record_matches record filter_dict) (data self)
  end.

Definition raw_data (self : LoanDatabase) : list record := data self.

(** [query]: the store as a frame, handed to [query_func]; a frame that
    comes back is turned into records, anything else is returned as it
    is. *)
Definition query {A : Type} (self : LoanDatabase)
    (query_func : Pd.DataFrame → Pd.DataFrame + A)
  : list (gmap string Pd.cell) + A :=
  let df := Pd.of_records (data self) in
  match query_func df with
  | inl res => inl (Pd.to_dict_records res)
  | inr other => inr other
  end.

Section Interpreter.

(** What pandas computes for [df.groupby(keys).agg(...).reset_index()]
    once the keys resolve and the named aggregation is well formed. *)
Variable pandas_agg :
  Pd.DataFrame → list (option string) → pydict Pd.agg_arg → result Pd.DataFrame.

(** The [if op == ... elif ...] chain of a match condition; a symbol
    outside the chain leaves the frame as it is. *)
Definition apply_op (field : string) (res : Pd.DataFrame)
    (entry : string * value) : result Pd.DataFrame :=
  let '(op, value) := entry in
  if decide (op = "$eq") then Pd.where_ res field Pd.EQ value
  else if decide (op = "$gt") then Pd.where_ res field Pd.GT value
  else if decide (op = "$gte") then Pd.where_ res field Pd.GE value
  else if decide (op = "$lt") then Pd.where_ res field Pd.LT value
  else if decide (op = "$lte") then Pd.where_ res field Pd.LE value
  else Ok res.

Definition apply_condition (res : Pd.DataFrame)
    (entry : string * condition) : result Pd.DataFrame :=
  let '(field, condition) := entry in
  match condition with
  | Ops ops => for_each (apply_op field) ops res
  | Direct v => Pd.where_ res field Pd.EQ v
  end.

(** The loop over [agg_expr.items()] that fills [agg_dict]; an operator
    other than [$sum] and [$avg] adds nothing. *)
Definition add_agg (output_field : string) (agg_dict : pydict Pd.agg_arg)
    (entry : string * value) : pydict Pd.agg_arg :=
  let '(op, field_expr) := entry in
  if decide (op = "$sum") then
    if py_eq field_expr (VInt 1)
    then dict_set output_field (Pd.AggStr "count") agg_dict
    else dict_set output_field (Pd.AggPair "sum" field_expr) agg_dict
  else if decide (op = "$avg") then
    dict_set output_field (Pd.AggPair "mean" field_expr) agg_dict
  else agg_dict.

Definition build_agg_dict (aggs : pydict (pydict value)) : pydict Pd.agg_arg :=
  fold_left
    (λ agg_dict '(output_field, agg_expr),
       fold_left (add_agg output_field) agg_expr agg_dict)
    aggs [].

Definition group_cols_of (group_by : group_id) : list (option string) :=
  match group_by with
  | IdFields fs => map (λ kv, Some kv.2) fs
  | IdField f => [Some f]
  | IdNone => [None]
  end.

Definition run_stage (res : Pd.DataFrame) (stage : stage)
  : result Pd.DataFrame :=
  match stage with
  | Match conds => for_each apply_condition conds res
  | Group group_by aggs =>
      let group_cols := group_cols_of group_by in
      let agg_dict := build_agg_dict aggs in
      _ ← Pd.groupby res group_cols;
      _ ← Pd.check_named_agg res agg_dict;
      pandas_agg res group_cols agg_dict
  | Project fields =>
      let include_fields :=
        map fst (filter (λ kv, py_eq kv.2 (VInt 1)) fields) in
      Pd.project res include_fields
  | Other => Ok res
  end.

Definition aggregate (self : LoanDatabase) (pipeline : list stage)
  : result (list (gmap string Pd.cell)) :=
  let df := Pd.of_records (data self) in
  res ← for_each run_stage pipeline df;
  Ok (Pd.to_dict_records res).

(** *** The tool entry points of the agent

    A method of the agent runs on the agent's state and hands it back;
    the text that [json.dumps] writes is kept as the value it
    serialises. *)

Record QueryAgent : Type := { database : LoanDatabase }.

Inductive tool_output : Type :=
| JsonRecords (results : list record)
| JsonRows (results : list (gmap string Pd.cell))
| ErrorText (prefix : string) (e : pyexn).

Definition method (A : Type) : Type := QueryAgent → A * QueryAgent.

Definition _find_loans (query_string : string) : method tool_output :=
  λ self,
    let filter_dict := _parse_filters query_string in
    let results := find (database self) (Some filter_dict) in
    (JsonRecords results, self).

Definition _aggregate_loans (query_string : string) : method tool_output :=
  λ self,
    let pipeline := _build_pipeline query_string in
    match aggregate (database self) pipeline with
    | Ok results => (JsonRows results, self)
    | Raise e => (ErrorText "Error executing aggregation: " e, self)
    end.

Definition _get_raw_data (_ : string) : method tool_output :=
  λ self, (JsonRecords (raw_data (database self)), self).

End Interpreter.

(** ** The store as objects on a heap

    [self.data] is a Python list of dicts.  Lists and dicts are objects:
    a name refers to one, two names can refer to the same one, and
    [append] or an item assignment changes the object for every name
    that refers to it.  Here a reference is a location of a heap, and a
    method takes the heap as it finds it and hands back the heap as it
    leaves it.  [_parse_filters] and [_build_pipeline] read nothing of
    [self] and hand over dicts that they alone made, so they stay the
    functions above; a frame holds copies of what [pd.DataFrame] read. *)

Module Obj.

Abbreviation ref := positive.

Inductive object : Type :=
| PyList (items : list ref)
| PyDict (entries : record).

Abbreviation heap := (gmap ref object).

(** The items of the list that [xs] refers to. *)
Definition items (h : heap) (xs : ref) : list ref :=
  match h !! xs with
  | Some (PyList l) => l
  | _ => []
  end.

(** The entries of the dict that [d] refers to. *)
Definition entries (h : heap) (d : ref) : record :=
  match h !! d with
  | Some (PyDict r) => r
  | _ => ∅
  end.

(** [[]]: a new list, at a location that nothing refers to yet. *)
Definition new_list (h : heap) : ref * heap :=
  let xs := fresh (dom h) in (xs, <[xs := PyList []]> h).

(** [xs.append(x)]: the list object changes where it is. *)
Definition append (xs x : ref) (h : heap) : heap :=
  <[xs := PyList (items h xs ++ [x])]> h.

(** What [json.dumps] and [pd.DataFrame] read of a list of dicts: the
    entries of each item, in order. *)
Definition contents (h : heap) (xs : ref) : list record :=
  map (entries h) (items h xs).

Record LoanDatabase : Type := { data : ref }.

Record QueryAgent : Type := { database : LoanDatabase }.

(** The loop [for record in self.data] of [find].  The iterator of a
    list keeps an index and reads the list anew at every step, so a body
    that appended to [self.data] would be seen by the loop.  [fuel]
    bounds the number of steps; [None] is a loop that has not ended
    within it. *)
Fixpoint find_loop (fuel : nat) (self : LoanDatabase)
    (filter_dict : gmap string value) (results : ref) (i : nat) (h : heap)
  : option heap :=
  match fuel with
  | O => None
  | S fuel =>
      match items h (data self) !! i with
      | None => Some h
      | Some record =>
          let h :=
            if record_matches (entries h record) filter_dict
            then append results record h
            else h in
          find_loop fuel self filter_dict results (S i) h
      end
  end.

(** [find] hands back a reference: to [self.data] itself when there is
    no filter, to a new list of the matching dicts of the store (the
    dicts themselves, not copies) when there is one. *)
Definition find (fuel : nat) (self : LoanDatabase)
    (filter_dict : option (gmap string value)) (h : heap)
  : option (ref * heap) :=
  match filter_dict with
  | None => Some (data self, h)
  | Some filter_dict =>
      let '(results, h) := new_list h in
      h ← find_loop fuel self filter_dict results 0 h;
      Some (results, h)
  end.

Definition raw_data (self : LoanDatabase) (h : heap) : ref * heap :=
  (data self, h).

Section Tools.

Variable pandas_agg :
  Pd.DataFrame → list (option string) → pydict Pd.agg_arg → result Pd.DataFrame.

(** [aggregate] copies the store into a frame and works on frames from
    there on. *)
Definition aggregate (self : LoanDatabase) (pipeline : list stage) (h : heap)
  : result (list (gmap string Pd.cell)) * heap :=
  let df := Pd.of_records (contents h (data self)) in
  (res ← for_each (run_stage pandas_agg) pipeline df;
   Ok (Pd.to_dict_records res),
   h).

Definition _find_loans (fuel : nat) (query_string : string)
    (self : QueryAgent) (h : heap) : option (tool_output * heap) :=
  let filter_dict := _parse_filters query_string in
  '(results, h) ← find fuel (database self) (Some filter_dict) h;
  Some (JsonRecords (contents h results), h).

Definition _aggregate_loans (query_string : string) (self : QueryAgent)
    (h : heap) : tool_output * heap :=
  let pipeline := _build_pipeline query_string in
  match aggregate (database self) pipeline h with
  | (Ok results, h) => (JsonRows results, h)
  | (Raise e, h) => (ErrorText "Error executing aggregation: " e, h)
  end.

End Tools.

End Obj.

(** *** The greeting tool *)

Definition greetings : list string :=
  ["hi"; "hello"; "hey"; "greetings"; "howdy"].

(** The dict that [_handle_greeting] serialises after "Final Answer: ". *)
Record greeting_response : Type := {
  greeting_result : string;
  greeting_explanation : string
}.

Definition _handle_greeting (query_string : string) : greeting_response :=
  let query_string := strip (lower query_string) in
  {| greeting_result :=
       if bool_decide (query_string ∈ greetings)
       then "Hello! How can I help you with loan data today?"
       else "I didn't recognize '" +:+ query_string +:+ "' as a greeting.";
     greeting_explanation :=
       if bool_decide (query_string ∈ greetings)
       then "This is a friendly greeting response."
       else "The input didn't match known greeting patterns." |}.

(** ** Definitions used to state the properties *)

(** The operator symbols that [aggregate] tests for. *)
Definition known_op (op : string) : bool :=
  bool_decide (op ∈ ["$eq"; "$gt"; "$gte"; "$lt"; "$lte"]).

Definition known_agg (op : string) : bool :=
  bool_decide (op ∈ ["$sum"; "$avg"]).

(** A stage with every entry removed whose symbol [aggregate] does not
    test for. *)
Definition prune_condition (c : condition) : condition :=
  match c with
  | Ops ops => Ops (filter (λ kv, known_op kv.1) ops)
  | Direct v => Direct v
  end.

Definition prune_stage (s : stage) : stage :=
  match s with
  | Match conds => Match (map (λ kv, (kv.1, prune_condition kv.2)) conds)
  | Group group_by aggs =>
      Group group_by
        (map (λ kv, (kv.1, filter (λ e, known_agg e.1) kv.2)) aggs)
  | Project fields => Project fields
  | Other => Other
  end.

(** Some stage of the pipeline holds an operator symbol or an aggregate
    function name that [aggregate] does not test for. *)
Definition has_unknown_symbol (pipeline : list stage) : Prop :=
  (∃ conds field ops op v,
      Match conds ∈ pipeline ∧ (field, Ops ops) ∈ conds
      ∧ (op, v) ∈ ops ∧ known_op op = false)
  ∨ (∃ group_by aggs output_field agg_expr op v,
      Group group_by aggs ∈ pipeline ∧ (output_field, agg_expr) ∈ aggs
      ∧ (op, v) ∈ agg_expr ∧ known_agg op = false).

(** What a pattern says, apart from how [exec] searches:
    [Matches ic r x rest c c'] holds when [r] can match the text [x] with
    [rest] after it, taking the groups from [c] to [c']. *)
Inductive Matches (ic : bool)
  : Re.regex → list ascii → list ascii → Re.captures → Re.captures → Prop :=
| M_Lit l x rest c :
    Forall2 (λ p a, Re.same_char ic p a) l x →
    Matches ic (Re.Lit l) x rest c c
| M_Set1 cl a rest c :
    Re.in_class ic cl a →
    Matches ic (Re.Set1 cl) [a] rest c c
| M_Plus cl x rest c :
    x ≠ [] → Forall (λ a, Re.in_class ic cl a) x →
    Matches ic (Re.Plus cl) x rest c c
| M_Rep n cl x rest c :
    length x = n → Forall (λ a, Re.in_class ic cl a) x →
    Matches ic (Re.Rep n cl) x rest c c
| M_Alt_l r1 r2 x rest c c' :
    Matches ic r1 x rest c c' → Matches ic (Re.Alt r1 r2) x rest c c'
| M_Alt_r r1 r2 x rest c c' :
    Matches ic r2 x rest c c' → Matches ic (Re.Alt r1 r2) x rest c c'
| M_Seq r1 r2 x1 x2 rest c c1 c2 :
    Matches ic r1 x1 (x2 ++ rest) c c1 →
    Matches ic r2 x2 rest c1 c2 →
    Matches ic (Re.Seq r1 r2) (x1 ++ x2) rest c c2
| M_Group i r x rest c c' :
    Matches ic r x rest c c' →
    Matches ic (Re.Group i r) x rest c (<[i := x]> c')
| M_Eos rest c :
    Re.at_end rest → Matches ic Re.Eos [] rest c c.

(** The text starts with "before" or "after" in any case, white space and
    four digits. *)
Definition date_phrase (s : list ascii) : Prop :=
  ∃ kw ws year rest,
    s = kw ++ ws ++ year ++ rest
    ∧ (map lower_char kw = chars "before" ∨ map lower_char kw = chars "after")
    ∧ ws ≠ [] ∧ Forall (λ a, is_space a) ws
    ∧ length year = 4 ∧ Forall (λ a, is_digit a) year.

(** Where a captured name may end: at the end of the text, or before a
    question mark or a white-space character. *)
Definition name_stop (after : list ascii) : Prop :=
  after = [] ∨ ∃ a r, after = a :: r ∧ (a = "?"%char ∨ is_space a).

(** The same test on the character that comes next. *)
Definition stops (after : list ascii) : bool :=
  match after with
  | [] => true
  | a :: _ => bool_decide (a = "?"%char) || is_space a
  end.

(** [v] is [l] without the white space at its two ends. *)
Definition no_space_at (c : option ascii) : Prop :=
  from_option (λ a, is_space a = false) True c.

Definition trimmed_of (l v : list ascii) : Prop :=
  ∃ a b, l = a ++ v ++ b
         ∧ Forall (λ c, is_space c) a ∧ Forall (λ c, is_space c) b
         ∧ no_space_at (head v) ∧ no_space_at (last v).

(** The record holds the field [k] with a value that [==] [v]. *)
Definition holds (r : record) (k : string) (v : value) : Prop :=
  match r !! k with
  | Some x => py_eq x v = true
  | None => False
  end.

#[global] Instance holds_dec r k v : Decision (holds r k v).
Proof. unfold holds. destruct (r !! k); apply _. Defined.

(** The record holds every field of the filter with a value that [==]
    the filter's. *)
Definition agrees (r : record) (f : gmap string value) : Prop :=
  map_Forall (holds r) f.

(** A filter that asks for strings only, as the extractor builds it. *)
Definition text_filter (f : gmap string value) : Prop :=
  ∀ k v, f !! k = Some v → ∃ s, v = VStr s.

(** The fields of a record that hold a string, and those of a row that a
    frame gives back. *)
Definition text_fields (r : record) : gmap string string :=
  omap (λ v, match v with VStr s => Some s | _ => None end) r.

Definition row_text_fields (row : gmap string Pd.cell) : gmap string string :=
  omap (λ c, match c with Some (VStr s) => Some s | _ => None end) row.

(** What an operator symbol of a match condition asks of the string [x]
    against the operand [s]; strings are ordered character by
    character. *)
Definition str_test (op x s : string) : Prop :=
  (op = "$eq" → x = s)
  ∧ (op = "$gt" → String.ltb s x = true)
  ∧ (op = "$gte" → String.leb s x = true)
  ∧ (op = "$lt" → String.ltb x s = true)
  ∧ (op = "$lte" → String.leb x s = true).

(** The float 15000.0. *)
Definition float_15000 : spec_float :=
  S754_finite false 8246337208320000 (-39).

(** The three-record store of the scenario. *)
Definition scenario_store : LoanDatabase :=
  {| data :=
       [ {[ "region" := VStr "Central"; "sex" := VStr "Female";
            "loan_amount" := VInt 22000 ]};
         {[ "region" := VStr "Central"; "sex" := VStr "Male";
            "loan_amount" := VInt 15000 ]};
         {[ "region" := VStr "North"; "sex" := VStr "Female";
            "loan_amount" := VInt 5000 ]} ] |}.

Definition empty_store : LoanDatabase := {| data := [] |}.

(** [p] occurs in [s]. *)
Definition substring (p s : string) : Prop :=
  ∃ l1 l2, chars s = l1 ++ chars p ++ l2.

(** The phrases that the four patterns look for, read at the start of
    the text [s], with the part that the group captures. *)
Definition name_phrase (s name : list ascii) : Prop :=
  ∃ ws post,
    s = chars "for" ++ ws ++ name ++ post
    ∧ ws ≠ [] ∧ Forall (λ a, is_space a) ws
    ∧ name ≠ [] ∧ Forall (λ a, is_name_char a) name
    ∧ name_stop post.

(** The text [t] that follows "for" splits into white space, a name and
    a rest at which the name may end. *)
Definition name_split (t ws name : list ascii) : Prop :=
  ∃ post,
    t = ws ++ name ++ post
    ∧ ws ≠ [] ∧ Forall (λ a, is_space a) ws
    ∧ name ≠ [] ∧ Forall (λ a, is_name_char a) name
    ∧ name_stop post.

(** The split that a greedy match with backtracking settles on: the
    longest white space after which a name can be read at all, and then
    the longest name. *)
Definition greedy_split (t ws name : list ascii) : Prop :=
  name_split t ws name
  ∧ ∀ ws' name',
      name_split t ws' name' →
      length ws' < length ws
      ∨ (length ws' = length ws ∧ length name' ≤ length name).

Definition region_phrase (s word : list ascii) : Prop :=
  ∃ kw ws1 ws2 lit rest,
    s = kw ++ ws1 ++ word ++ ws2 ++ lit ++ rest
    ∧ map lower_char kw = chars "in"
    ∧ ws1 ≠ [] ∧ Forall (λ a, is_space a) ws1
    ∧ word ≠ [] ∧ Forall (λ a, is_word a) word
    ∧ ws2 ≠ [] ∧ Forall (λ a, is_space a) ws2
    ∧ map lower_char lit = chars "region".

Definition currency_phrase (s code : list ascii) : Prop :=
  ∃ ws rest,
    s = chars "in" ++ ws ++ code ++ rest
    ∧ ws ≠ [] ∧ Forall (λ a, is_space a) ws
    ∧ length code = 3 ∧ Forall (λ a, is_upper a) code.

Definition dated_phrase (s : list ascii) (ky : list ascii * list ascii)
  : Prop :=
  ∃ ws rest,
    s = ky.1 ++ ws ++ ky.2 ++ rest
    ∧ (map lower_char ky.1 = chars "before"
       ∨ map lower_char ky.1 = chars "after")
    ∧ ws ≠ [] ∧ Forall (λ a, is_space a) ws
    ∧ length ky.2 = 4 ∧ Forall (λ a, is_digit a) ky.2.

(** [phrase] holds nowhere in [s] before the position [length pre]. *)
Definition none_before {A : Type} (phrase : list ascii → A → Prop)
    (s pre : list ascii) : Prop :=
  ∀ p1 s1 x, s = p1 ++ s1 → length p1 < length pre → ¬ phrase s1 x.

(** First character not a lower-case letter, no upper-case letter after
    it. *)
Definition title_case (v : string) : Prop :=
  ∃ a l, chars v = a :: l ∧ is_lower a = false
         ∧ Forall (λ c, is_upper c = false) l.

(** The group stages that [_build_pipeline] can emit. *)
Definition average_stage : stage :=
  Group IdNone [("average_loan", [("$avg", VStr "$loan_amount")])].

Definition total_stage (field : string) : stage :=
  Group IdNone [("total_amount", [("$sum", VStr ("$" +:+ field))])].

Definition grouped_stage (fields : pydict string) : stage :=
  Group (IdFields fields)
    [("total_amount", [("$sum", VStr "$loan_amount")]);
     ("count", [("$sum", VInt 1)])].

Definition built_groups : list stage :=
  [ average_stage; total_stage "pending"; total_stage "loan_amount";
    grouped_stage [("region", "$region")];
    grouped_stage [("sex", "$sex")];
    grouped_stage [("region", "$region"); ("sex", "$sex")];
    count_stage ].

(** A filter map as the [$match] stage with the same equalities. *)
Definition match_of_filter (f : gmap string value) : stage :=
  Match (map (λ kv, (kv.1, Direct kv.2)) (map_to_list f)).

(** * Properties *)

(** ** The matcher and the declarative reading agree *)

Module ReFacts.
Import Re.

Lemma take_consumed {A : Type} (x rest : list A) :
  take (length (x ++ rest) - length rest) (x ++ rest) = x.
Proof.
  rewrite length_app.
  replace (length x + length rest - length rest) with (length x) by lia.
  apply take_app_length.
Qed.

Lemma lit_rest_sound ic l s s' :
  lit_rest ic l s = Some s' →
  ∃ x, s = x ++ s' ∧ Forall2 (λ p a, same_char ic p a) l x.
Proof.
  revert s. induction l as [|p l IH]; intros s H; simpl in H.
  - injection H as <-. exists []. split; [done|constructor].
  - destruct s as [|a s]; [done|].
    destruct (same_char ic p a) eqn:E; [|done].
    destruct (IH _ H) as (x & -> & Hx).
    exists (a :: x). split; [done|]. constructor; [by rewrite E|done].
Qed.

Lemma lit_rest_complete ic l x rest :
  Forall2 (λ p a, same_char ic p a) l x →
  lit_rest ic l (x ++ rest) = Some rest.
Proof.
  induction 1 as [|p a l x Hpa _ IH]; simpl; [done|].
  destruct (same_char ic p a); [done|by destruct Hpa].
Qed.

Lemma rep_rest_sound n ok s s' :
  rep_rest n ok s = Some s' →
  ∃ x, s = x ++ s' ∧ length x = n ∧ Forall (λ a, ok a) x.
Proof.
  revert s. induction n as [|n IH]; intros s H; simpl in H.
  - injection H as <-. by exists [].
  - destruct s as [|a s]; [done|].
    destruct (ok a) eqn:E; [|done].
    destruct (IH _ H) as (x & -> & Hlen & Hx).
    exists (a :: x). repeat split; [by simpl; f_equal|].
    constructor; [by rewrite E|done].
Qed.

Lemma rep_rest_complete (ok : ascii → bool) x rest :
  Forall (λ a, ok a) x → rep_rest (length x) ok (x ++ rest) = Some rest.
Proof.
  induction 1 as [|a x Ha _ IH]; simpl; [done|].
  destruct (ok a); [done|by destruct Ha].
Qed.

Lemma plus_then_sound {R : Type} ok s (k : list ascii → option R) m :
  plus_then ok s k = Some m →
  ∃ x s', s = x ++ s' ∧ x ≠ [] ∧ Forall (λ a, ok a) x ∧ k s' = Some m.
Proof.
  revert m. induction s as [|a s IH]; intros m H; simpl in H; [done|].
  destruct (ok a) eqn:E; [|done].
  destruct (plus_then ok s k) as [m'|] eqn:E'.
  - injection H as ->.
    destruct (IH _ eq_refl) as (x & s' & -> & _ & Hx & Hk).
    exists (a :: x), s'. repeat split; [done| |done].
    constructor; [by rewrite E|done].
  - exists [a], s. repeat split; [done| |done].
    constructor; [by rewrite E|constructor].
Qed.

Lemma plus_then_complete {R : Type} (ok : ascii → bool) x rest
    (k : list ascii → option R) :
  x ≠ [] → Forall (λ a, ok a) x → is_Some (k rest) →
  is_Some (plus_then ok (x ++ rest) k).
Proof.
  intros Hne Hx Hk. induction Hx as [|a x Ha Hx IH]; [done|].
  simpl. destruct (ok a); [|by destruct Ha].
  destruct (plus_then ok (x ++ rest) k) eqn:E; [done|].
  destruct x as [|b x]; [done|].
  destruct IH as [m Hm]; [done|]. simpl in *. congruence.
Qed.

(** A greedy run is the longest one that the continuation accepts. *)
Lemma plus_then_greedy {R : Type} (ok : ascii → bool) s
    (k : list ascii → option R) m :
  plus_then ok s k = Some m →
  ∃ x s', s = x ++ s' ∧ x ≠ [] ∧ Forall (λ a, ok a) x ∧ k s' = Some m
    ∧ ∀ x' s'', s = x' ++ s'' → Forall (λ a, ok a) x' →
                length x < length x' → k s'' = None.
Proof.
  revert m. induction s as [|a s IH]; intros m H; simpl in H; [done|].
  destruct (ok a) eqn:E; [|done].
  destruct (plus_then ok s k) as [m'|] eqn:E'.
  - injection H as ->.
    destruct (IH _ eq_refl) as (x & s' & -> & _ & Hx & Hk & Hmax).
    exists (a :: x), s'. repeat split; [done| |done|].
    + constructor; [by rewrite E|done].
    + intros x' s'' Heq Hx' Hlen.
      destruct x' as [|b x']; [simpl in Hlen; lia|].
      injection Heq as <- Heq. apply Forall_cons in Hx' as [_ Hx'].
      apply (Hmax x' s''); [done|done|simpl in Hlen; lia].
  - exists [a], s. repeat split; [done| |done|].
    + constructor; [by rewrite E|constructor].
    + intros x' s'' Heq Hx' Hlen.
      destruct x' as [|b [|c x']]; [simpl in Hlen; lia..|].
      injection Heq as <- Heq. apply Forall_cons in Hx' as [_ Hx'].
      destruct (k s'') as [m''|] eqn:Ek; [|done].
      assert (Hsome : is_Some (plus_then ok s k)).
      { rewrite Heq. apply (plus_then_complete ok (c :: x') s'');
          [done|done|by rewrite Ek]. }
      rewrite E' in Hsome. by destruct Hsome.
Qed.

(** A greedy run that ends where the class ends takes the whole run
    when the continuation accepts there. *)
Lemma plus_then_stop {R : Type} (ok : ascii → bool) x rest
    (k : list ascii → option R) m :
  x ≠ [] → Forall (λ a, ok a) x →
  from_option (λ a, negb (ok a)) true (head rest) →
  k rest = Some m →
  plus_then ok (x ++ rest) k = Some m.
Proof.
  intros Hne Hx Hrest Hk. induction Hx as [|a x Ha Hx IH]; [done|].
  simpl. destruct (ok a); [|by destruct Ha].
  destruct x as [|b x].
  - simpl. destruct rest as [|c rest]; simpl; [done|].
    simpl in Hrest. by destruct (ok c).
  - by rewrite IH.
Qed.

Lemma exec_sound ic r s c k m :
  exec ic r s c k = Some m →
  ∃ x rest c', s = x ++ rest ∧ Matches ic r x rest c c' ∧ k rest c' = Some m.
Proof.
  revert s c k m.
  induction r as [l|cl|cl|n cl|r1 IH1 r2 IH2|r1 IH1 r2 IH2|i r IH|];
    intros s c k m H; simpl in H.
  - destruct (lit_rest ic l s) as [s'|] eqn:E; [|done].
    destruct (lit_rest_sound _ _ _ _ E) as (x & -> & Hx).
    exists x, s', c. eauto using Matches.
  - destruct s as [|a s]; [done|].
    destruct (in_class ic cl a) eqn:E; [|done].
    exists [a], s, c. repeat split; [|done].
    constructor. by rewrite E.
  - destruct (plus_then_sound _ _ _ _ H) as (x & s' & -> & Hne & Hx & Hk).
    exists x, s', c. eauto using Matches.
  - destruct (rep_rest n (in_class ic cl) s) as [s'|] eqn:E; [|done].
    destruct (rep_rest_sound _ _ _ _ E) as (x & -> & Hlen & Hx).
    exists x, s', c. eauto using Matches.
  - destruct (exec ic r1 s c k) as [m'|] eqn:E.
    + injection H as ->.
      destruct (IH1 _ _ _ _ E) as (x & rest & c' & -> & HM & Hk).
      exists x, rest, c'. eauto using Matches.
    + destruct (IH2 _ _ _ _ H) as (x & rest & c' & -> & HM & Hk).
      exists x, rest, c'. eauto using Matches.
  - destruct (IH1 _ _ _ _ H) as (x1 & s1 & c1 & -> & HM1 & H1).
    destruct (IH2 _ _ _ _ H1) as (x2 & rest & c2 & -> & HM2 & H2).
    exists (x1 ++ x2), rest, c2. rewrite <- (assoc_L (++)).
    eauto using Matches.
  - destruct (IH _ _ _ _ H) as (x & rest & c' & -> & HM & Hk).
    rewrite take_consumed in Hk.
    exists x, rest, (<[i := x]> c'). eauto using Matches.
  - destruct (at_end s) eqn:E; [|done].
    exists [], s, c. repeat split; [|done]. constructor. by rewrite E.
Qed.

Lemma exec_complete ic r x rest c c' :
  Matches ic r x rest c c' →
  ∀ k c0, (∀ c1, is_Some (k rest c1)) → is_Some (exec ic r (x ++ rest) c0 k).
Proof.
  induction 1 as [l x rest c Hx|cl a rest c Ha|cl x rest c Hne Hx
                 |n cl x rest c Hlen Hx|r1 r2 x rest c c' _ IH
                 |r1 r2 x rest c c' _ IH
                 |r1 r2 x1 x2 rest c c1 c2 _ IH1 _ IH2
                 |i r x rest c c' _ IH|rest c He];
    intros k c0 Hk; simpl.
  - by rewrite (lit_rest_complete _ _ _ _ Hx).
  - destruct (in_class ic cl a); [done|by destruct Ha].
  - by apply plus_then_complete.
  - subst n. by rewrite rep_rest_complete.
  - by destruct (IH k c0 Hk) as [m ->].
  - destruct (exec ic r1 (x ++ rest) c0 k); [done|]. by apply IH.
  - rewrite <- (assoc_L (++)). apply IH1. intros c3. by apply IH2.
  - apply IH. intros c1. apply Hk.
  - destruct (at_end rest); [done|by destruct He].
Qed.

Lemma match_here_complete ic r x rest c' :
  Matches ic r x rest ∅ c' → is_Some (match_here ic r (x ++ rest)).
Proof. intros H. by apply (exec_complete _ _ _ _ _ _ H). Qed.

Lemma match_here_sound ic r s m :
  match_here ic r s = Some m →
  ∃ x rest, s = x ++ rest ∧ Matches ic r x rest ∅ m.
Proof.
  intros H. destruct (exec_sound _ _ _ _ _ _ H) as (x & rest & c' & -> & HM & [= ->]).
  eauto.
Qed.

(** [search_chars] finds a match as soon as some suffix has one. *)
Lemma search_complete ic r p s :
  is_Some (match_here ic r s) → is_Some (search_chars ic r (p ++ s)).
Proof.
  intros H. induction p as [|a p IH]; simpl.
  - destruct s; simpl; by destruct (match_here ic r _).
  - by destruct (match_here ic r (a :: p ++ s)).
Qed.

(** ... and what it returns is the match of the leftmost such suffix. *)
Lemma search_sound ic r s m :
  search_chars ic r s = Some m →
  ∃ p s', s = p ++ s' ∧ match_here ic r s' = Some m.
Proof.
  induction s as [|a s IH]; simpl.
  - destruct (match_here ic r []) eqn:E; [|done].
    intros [= ->]. by exists [], [].
  - destruct (match_here ic r (a :: s)) eqn:E.
    + intros [= ->]. by exists [], (a :: s).
    + intros H. destruct (IH H) as (p & s' & -> & Hm).
      by exists (a :: p), s'.
Qed.

Lemma search_leftmost ic r p s m :
  (∀ p1 s1, p ++ s = p1 ++ s1 → length p1 < length p →
            match_here ic r s1 = None) →
  match_here ic r s = Some m →
  search_chars ic r (p ++ s) = Some m.
Proof.
  intros Hnone Hm. induction p as [|a p IH]; simpl.
  - destruct s; simpl; by rewrite Hm.
  - rewrite (Hnone [] (a :: p ++ s)) by (done || simpl; lia).
    apply IH. intros p1 s1 Heq Hlen.
    apply (Hnone (a :: p1) s1); simpl; [by f_equal|lia].
Qed.

End ReFacts.

(** ** Text and character classes *)

Lemma chars_text l : chars (text l) = l.
Proof. apply list_ascii_of_string_of_list_ascii. Qed.

Lemma lstrip_spec l :
  ∃ a, l = a ++ lstrip l ∧ Forall (λ c, is_space c) a
       ∧ no_space_at (head (lstrip l)).
Proof.
  induction l as [|c l (a & Hl & Ha & Hh)]; simpl.
  - by exists [].
  - destruct (is_space c) eqn:E.
    + exists (c :: a). repeat split; [by rewrite Hl at 1| |done].
      constructor; [by rewrite E|done].
    + by exists [].
Qed.

Lemma strip_chars_spec l : trimmed_of l (strip_chars l).
Proof.
  unfold strip_chars.
  destruct (lstrip_spec l) as (a & Hl & Ha & Hh).
  destruct (lstrip_spec (reverse (lstrip l))) as (b & Hr & Hb & Hh').
  set (v := lstrip (reverse (lstrip l))) in *.
  assert (Hl1 : lstrip l = reverse v ++ reverse b).
  { by rewrite <- reverse_app, <- Hr, reverse_involutive. }
  exists a, (reverse b). repeat split.
  - by rewrite <- Hl1.
  - done.
  - by apply Forall_reverse.
  - rewrite Hl1, head_app in Hh. by destruct (head (reverse v)).
  - by rewrite last_reverse.
Qed.

Lemma strip_text l : strip (text l) = text (strip_chars l).
Proof. unfold strip. by rewrite chars_text. Qed.

Ltac by_cases_on_char a :=
  destruct a as [[] [] [] [] [] [] [] []]; vm_compute; try tauto; try congruence.

Lemma in_class_space ic a : Re.in_class ic is_space a = is_space a.
Proof. destruct ic; by_cases_on_char a. Qed.

Lemma in_class_digit ic a : Re.in_class ic is_digit a = is_digit a.
Proof. destruct ic; by_cases_on_char a. Qed.

Lemma in_class_word ic a : Re.in_class ic is_word a = is_word a.
Proof. destruct ic; by_cases_on_char a. Qed.

Lemma in_class_exact c a : Re.in_class false c a = c a.
Proof. unfold Re.in_class. by rewrite andb_false_l, orb_false_r. Qed.

Lemma digit_not_space a : is_digit a → is_space a = false.
Proof. by_cases_on_char a. Qed.

Lemma upper_is_word a : is_upper a → is_word a.
Proof. by_cases_on_char a. Qed.


(** ** Insertion-ordered dicts *)

Lemma dict_set_elem {V : Type} k (v : V) d : (k, v) ∈ dict_set k v d.
Proof.
  induction d as [|[k' v'] d IH]; simpl; [apply list_elem_of_here|].
  case_decide; [apply list_elem_of_here|by apply list_elem_of_further].
Qed.

Lemma dict_set_other {V : Type} k (v : V) k' v' d :
  k' ≠ k → (k', v') ∈ d → (k', v') ∈ dict_set k v d.
Proof.
  intros Hne. induction d as [|[k0 v0] d IH]; simpl; [by intros ?%elem_of_nil|].
  intros [[= -> ->]|Hin]%elem_of_cons; case_decide; subst; try done.
  - apply list_elem_of_here.
  - by apply list_elem_of_further.
  - by apply list_elem_of_further, IH.
Qed.

(** ** The extractor, rule by rule *)

Lemma parse_filters_user_name q :
  _parse_filters q !! "user_name"
  = (λ m, VStr (strip (Re.group m 1))) <$> Re.search user_name_re q NOFLAG.
Proof.
  unfold _parse_filters.
  destruct (Re.search user_name_re q NOFLAG), (Re.search region_re q IGNORECASE),
    (Re.search currency_re q NOFLAG), (sex_of q); simpl;
    by rewrite ?lookup_insert_eq, ?lookup_insert_ne, ?lookup_empty
      by discriminate.
Qed.

Lemma parse_filters_region q :
  _parse_filters q !! "region"
  = (λ m, VStr (capitalize (Re.group m 1))) <$> Re.search region_re q IGNORECASE.
Proof.
  unfold _parse_filters.
  destruct (Re.search user_name_re q NOFLAG), (Re.search region_re q IGNORECASE),
    (Re.search currency_re q NOFLAG), (sex_of q); simpl;
    by rewrite ?lookup_insert_eq, ?lookup_insert_ne, ?lookup_empty
      by discriminate.
Qed.

Lemma parse_filters_currency q :
  _parse_filters q !! "currency"
  = (λ m, VStr (upper (Re.group m 1))) <$> Re.search currency_re q NOFLAG.
Proof.
  unfold _parse_filters.
  destruct (Re.search user_name_re q NOFLAG), (Re.search region_re q IGNORECASE),
    (Re.search currency_re q NOFLAG), (sex_of q); simpl;
    by rewrite ?lookup_insert_eq, ?lookup_insert_ne, ?lookup_empty
      by discriminate.
Qed.

(** Case analysis that follows the [if]/[elif] chain on the aggregation
    words of the lower-cased query [ql]. *)
Ltac split_on_words ql :=
  destruct (contains "average" ql || contains "avg" ql);
    [|destruct (contains "total" ql || contains "sum" ql);
      [destruct (contains "pending" ql)
      |destruct (contains "group" ql);
        [destruct (contains "region" ql),
                  (contains "gender" ql || contains "sex" ql)|]]].

Lemma build_pipeline_head q :
  match_stage_of q ≠ [] →
  ∃ rest, _build_pipeline q = Match (match_stage_of q) :: rest.
Proof.
  unfold _build_pipeline. cbv zeta.
  generalize (match_stage_of q) (lower q). intros ms ql Hne.
  destruct ms as [|c ms]; [done|].
  split_on_words ql; simpl; eauto.
Qed.

(** ** What [re.search] returns, position by position *)

Lemma search_none ic r s :
  Re.search_chars ic r s = None
  ↔ ∀ p s', s = p ++ s' → Re.match_here ic r s' = None.
Proof.
  induction s as [|a s IH]; simpl.
  - destruct (Re.match_here ic r []) eqn:E; split; try done.
    + intros H. by rewrite (H [] []) in E.
    + intros _ p s' H. by destruct p, s'.
  - destruct (Re.match_here ic r (a :: s)) eqn:E.
    + split; [done|]. intros H. by rewrite (H [] (a :: s)) in E.
    + rewrite IH. split.
      * intros H [|b p] s' Hs; simplify_eq/=; [done|by eapply H].
      * intros H p s' ->. by apply (H (a :: p)).
Qed.

Lemma search_some_leftmost ic r s m :
  Re.search_chars ic r s = Some m →
  ∃ p s', s = p ++ s' ∧ Re.match_here ic r s' = Some m
          ∧ ∀ p1 s1, s = p1 ++ s1 → length p1 < length p →
                     Re.match_here ic r s1 = None.
Proof.
  induction s as [|a s IH]; simpl.
  - destruct (Re.match_here ic r []) eqn:E; [|done].
    intros [= ->]. exists [], []. repeat split; [done|]. simpl. lia.
  - destruct (Re.match_here ic r (a :: s)) eqn:E.
    + intros [= ->]. exists [], (a :: s). repeat split; [done|]. simpl. lia.
    + intros H. destruct (IH H) as (p & s' & -> & Hm & Hle).
      exists (a :: p), s'. repeat split; [done|].
      intros [|b p1] s1 Hs Hlt; simplify_eq/=; [done|].
      eapply Hle; [done|lia].
Qed.

(** The shape shared by the rules: the key is absent exactly when the
    phrase occurs nowhere, and a match is the capture of the leftmost
    occurrence. *)
Lemma search_by_phrase {A : Type} ic r (phrase : list ascii → A → Prop)
    (caps : Re.captures → A → Prop) q :
  (∀ s m, Re.match_here ic r s = Some m → ∃ x, phrase s x ∧ caps m x) →
  (∀ s x, phrase s x → is_Some (Re.match_here ic r s)) →
  (Re.search r q ic = None ↔ ¬ ∃ pre s x, chars q = pre ++ s ∧ phrase s x)
  ∧ (∀ m, Re.search r q ic = Some m →
      ∃ pre s x, chars q = pre ++ s ∧ phrase s x
                 ∧ none_before phrase (chars q) pre ∧ caps m x).
Proof.
  intros Hread Hfound. unfold Re.search. split.
  - rewrite search_none. split.
    + intros Hn (pre & s & x & Hq & Hp).
      destruct (Hfound _ _ Hp) as [m Hm]. by rewrite (Hn _ _ Hq) in Hm.
    + intros Hn p s' Hq. destruct (Re.match_here ic r s') eqn:E; [|done].
      destruct (Hread _ _ E) as (x & Hp & _). destruct Hn; eauto.
  - intros m Hm.
    destruct (search_some_leftmost _ _ _ _ Hm) as (p & s' & Hq & Hm' & Hle).
    destruct (Hread _ _ Hm') as (x & Hp & Hx).
    exists p, s', x. repeat split; [done..| |done].
    intros p1 s1 x1 Hq1 Hlt Hp1.
    destruct (Hfound _ _ Hp1) as [m1 Hm1]. by rewrite (Hle _ _ Hq1 Hlt) in Hm1.
Qed.

(** ** Reading a match of each pattern *)

Section Inversion.
Import Re.
Context (ic : bool).

Lemma Matches_seq_inv r1 r2 x rest c c2 :
  Matches ic (Seq r1 r2) x rest c c2 →
  ∃ x1 x2 c1, x = x1 ++ x2 ∧ Matches ic r1 x1 (x2 ++ rest) c c1
              ∧ Matches ic r2 x2 rest c1 c2.
Proof. inversion 1; subst; eauto 10. Qed.

Lemma Matches_group_inv i r x rest c c' :
  Matches ic (Group i r) x rest c c' →
  ∃ c1, c' = <[i := x]> c1 ∧ Matches ic r x rest c c1.
Proof. inversion 1; subst; eauto. Qed.

Lemma Matches_alt_inv r1 r2 x rest c c' :
  Matches ic (Alt r1 r2) x rest c c' →
  Matches ic r1 x rest c c' ∨ Matches ic r2 x rest c c'.
Proof. inversion 1; subst; eauto. Qed.

Lemma Matches_lit_inv l x rest c c' :
  Matches ic (Lit l) x rest c c' →
  c' = c ∧ Forall2 (λ p a, same_char ic p a) l x.
Proof. inversion 1; subst; eauto. Qed.

Lemma Matches_plus_inv cl x rest c c' :
  Matches ic (Plus cl) x rest c c' →
  c' = c ∧ x ≠ [] ∧ Forall (λ a, in_class ic cl a) x.
Proof. inversion 1; subst; eauto. Qed.

Lemma Matches_rep_inv n cl x rest c c' :
  Matches ic (Rep n cl) x rest c c' →
  c' = c ∧ length x = n ∧ Forall (λ a, in_class ic cl a) x.
Proof. inversion 1; subst; eauto. Qed.

Lemma Matches_set1_inv cl x rest c c' :
  Matches ic (Set1 cl) x rest c c' →
  c' = c ∧ ∃ a, x = [a] ∧ in_class ic cl a.
Proof. inversion 1; subst; eauto. Qed.

Lemma Matches_eos_inv x rest c c' :
  Matches ic Eos x rest c c' → c' = c ∧ x = [] ∧ at_end rest.
Proof. inversion 1; subst; eauto. Qed.

Lemma Matches_seq r1 r2 x1 x2 x rest c c1 c2 :
  x = x1 ++ x2 →
  Matches ic r1 x1 (x2 ++ rest) c c1 →
  Matches ic r2 x2 rest c1 c2 →
  Matches ic (Seq r1 r2) x rest c c2.
Proof. intros ->. apply M_Seq. Qed.

End Inversion.

Ltac read_match :=
  repeat match goal with
    | H : Matches _ (Re.Seq _ _) _ _ _ _ |- _ =>
        apply Matches_seq_inv in H as (? & ? & ? & -> & ? & ?)
    | H : Matches _ (Re.Group _ _) _ _ _ _ |- _ =>
        apply Matches_group_inv in H as (? & -> & ?)
    | H : Matches _ (Re.Lit _) _ _ _ _ |- _ =>
        apply Matches_lit_inv in H as (-> & ?)
    | H : Matches _ (Re.Plus _) _ _ _ _ |- _ =>
        apply Matches_plus_inv in H as (-> & ? & ?)
    | H : Matches _ (Re.Rep _ _) _ _ _ _ |- _ =>
        apply Matches_rep_inv in H as (-> & ? & ?)
    | H : Matches _ (Re.Set1 _) _ _ _ _ |- _ =>
        apply Matches_set1_inv in H as (-> & ? & -> & ?)
    | H : Matches _ Re.Eos _ _ _ _ |- _ =>
        apply Matches_eos_inv in H as (-> & -> & ?)
    | H : Matches _ (Re.Alt _ _) _ _ _ _ |- _ =>
        apply Matches_alt_inv in H as [?|?]
    end.

(** A literal matched without flags is the literal. *)
Lemma lit_exact l x :
  Forall2 (λ p a, Re.same_char false p a) l x → x = l.
Proof.
  induction 1 as [|p a l x Hpa _ IH]; [done|].
  simpl in Hpa. apply bool_decide_unpack in Hpa. by subst.
Qed.

Lemma lit_refl ic l : Forall2 (λ p a, Re.same_char ic p a) l l.
Proof.
  induction l; constructor; [|done].
  unfold Re.same_char. destruct ic; by apply bool_decide_pack.
Qed.

(** A literal matched with [IGNORECASE] agrees with it after lower-casing. *)
Lemma lit_nocase l x :
  Forall2 (λ p a, Re.same_char true p a) l x →
  map lower_char x = map lower_char l.
Proof.
  induction 1 as [|p a l x Hpa _ IH]; [done|].
  simpl in Hpa. apply bool_decide_unpack in Hpa. simpl. by rewrite IH, Hpa.
Qed.

Lemma lit_nocase_intro l x :
  map lower_char x = map lower_char l →
  Forall2 (λ p a, Re.same_char true p a) l x.
Proof.
  revert x. induction l as [|p l IH]; intros [|a x] H; try done.
  injection H as Ha Hx. constructor; [|by apply IH].
  simpl. by apply bool_decide_pack.
Qed.

(** *** The name pattern *)

Lemma user_name_read x rest m :
  Matches false user_name_re x rest ∅ m →
  ∃ ws name t,
    x = chars "for" ++ ws ++ name ++ t
    ∧ ws ≠ [] ∧ Forall (λ a, is_space a) ws
    ∧ name ≠ [] ∧ Forall (λ a, is_name_char a) name
    ∧ name_stop (t ++ rest)
    ∧ m !! 1 = Some name.
Proof.
  unfold user_name_re. intros H. read_match.
  all: match goal with H : Forall2 _ (chars "for") _ |- _ =>
         apply lit_exact in H as -> end.
  all: repeat match goal with
         | H : Forall (λ a, Is_true (Re.in_class false _ a)) _ |- _ =>
             setoid_rewrite in_class_exact in H
         | H : Is_true (Re.in_class false _ _) |- _ =>
             rewrite in_class_exact in H
         end.
  all: do 3 eexists; split; [reflexivity|]; repeat (split; [done|]).
  all: split; [|by rewrite lookup_insert_eq].
  - match goal with H : Forall2 _ (chars "?") _ |- _ =>
      apply lit_exact in H as -> end.
    right. exists "?"%char, rest. auto.
  - simpl. match goal with H : Is_true (Re.at_end _) |- _ => rename H into He end.
    destruct rest as [|a [|b rest]]; simpl in He; [by left| |done].
    apply bool_decide_unpack in He as ->. right. exists "010"%char, []. auto.
  - right. eauto.
Qed.

Lemma plus_of_class ic (cl : ascii → bool) l rest c :
  l ≠ [] → Forall (λ a, cl a) l → Matches ic (Re.Plus cl) l rest c c.
Proof.
  intros Hne Hl. constructor; [done|].
  eapply Forall_impl; [exact Hl|]. intros a Ha. unfold Re.in_class.
  apply orb_True. by left.
Qed.

Lemma name_phrase_read s m :
  Re.match_here false user_name_re s = Some m →
  ∃ name, name_phrase s name ∧ m !! 1 = Some name.
Proof.
  intros H.
  destruct (ReFacts.match_here_sound _ _ _ _ H) as (x & rest & -> & HM).
  destruct (user_name_read _ _ _ HM)
    as (ws & name & t & -> & Hw1 & Hw2 & Hn1 & Hn2 & Hst & Hcap).
  exists name. split; [|done]. exists ws, (t ++ rest).
  by rewrite <- !(assoc_L (++)).
Qed.

Lemma name_phrase_found s name :
  name_phrase s name → is_Some (Re.match_here false user_name_re s).
Proof.
  intros (ws & post & -> & Hw1 & Hw2 & Hn1 & Hn2 & Hstop).
  assert (Hgo : ∀ t rest, post = t ++ rest →
            Matches false
              (Re.Alt (Re.Lit (chars "?")) (Re.Alt Re.Eos (Re.Set1 is_space)))
              t rest (<[1 := name]> ∅) (<[1 := name]> ∅) →
            is_Some (Re.match_here false user_name_re
                       (chars "for" ++ ws ++ name ++ post))).
  { intros t rest -> Ht.
    replace (chars "for" ++ ws ++ name ++ t ++ rest)
      with ((chars "for" ++ ws ++ name ++ t) ++ rest)
      by (by rewrite <- !(assoc_L (++))).
    eapply ReFacts.match_here_complete. unfold user_name_re.
    eapply Matches_seq; [reflexivity|apply M_Lit, lit_refl|].
    eapply Matches_seq; [reflexivity|by apply plus_of_class|].
    eapply Matches_seq;
      [reflexivity|apply M_Group; by apply plus_of_class|exact Ht]. }
  destruct Hstop as [->|(a & r & -> & [->|Ha])].
  - apply (Hgo [] []); [done|]. apply M_Alt_r, M_Alt_l. by constructor.
  - apply (Hgo [("?"%char)] r); [done|]. apply M_Alt_l, M_Lit, lit_refl.
  - apply (Hgo [a] r); [done|]. apply M_Alt_r, M_Alt_r. constructor.
    by rewrite in_class_exact.
Qed.

(** **** Which name the search settles on *)

Lemma stops_spec s : stops s = true ↔ name_stop s.
Proof.
  unfold name_stop. destruct s as [|a r]; simpl.
  - split; [by left|done].
  - rewrite orb_true_iff, bool_decide_eq_true. split.
    + intros H. right. exists a, r. split; [done|].
      destruct H as [->|H]; [by left|right; by rewrite H].
    + intros [?|(a' & r' & [= <- <-] & [->|H])]; [done|by left|right].
      by apply Is_true_true.
Qed.

(** The end of the pattern, [(?:\?|$|\s)], looks at what comes next and
    leaves the groups alone. *)
Lemma stop_exec s (c : Re.captures) :
  Re.exec false
    (Re.Alt (Re.Lit (chars "?")) (Re.Alt Re.Eos (Re.Set1 is_space)))
    s c (λ _ c', Some c')
  = if stops s then Some c else None.
Proof.
  destruct s as [|a [|b r]]; [done|..];
    destruct a as [[] [] [] [] [] [] [] []]; reflexivity.
Qed.

Lemma exact_class (cl : ascii → bool) l :
  Forall (λ a, Re.in_class false cl a) l ↔ Forall (λ a, cl a) l.
Proof.
  split; intros H; (eapply Forall_impl; [exact H|]); intros a; cbv beta;
    by rewrite in_class_exact.
Qed.

(** The group and the end of the pattern, on the text that follows the
    white space: the captured name is the longest run of letters and
    white space after which the name may end. *)
Lemma name_exec_read t (c : Re.captures) m :
  Re.exec false
    (Re.Group 1 (Re.Plus is_name_char)
       ⋅ Re.Alt (Re.Lit (chars "?")) (Re.Alt Re.Eos (Re.Set1 is_space)))
    t c (λ _ c', Some c') = Some m →
  ∃ name post,
    t = name ++ post
    ∧ name ≠ [] ∧ Forall (λ a, is_name_char a) name ∧ name_stop post
    ∧ m = <[1 := name]> c
    ∧ ∀ name' post',
        t = name' ++ post' → Forall (λ a, is_name_char a) name' →
        length name < length name' → ¬ name_stop post'.
Proof.
  intros H.
  change (Re.plus_then (Re.in_class false is_name_char) t
            (λ s', Re.exec false
                     (Re.Alt (Re.Lit (chars "?"))
                        (Re.Alt Re.Eos (Re.Set1 is_space)))
                     s' (<[1 := take (length t - length s') t]> c)
                     (λ _ c', Some c')) = Some m) in H.
  destruct (ReFacts.plus_then_greedy _ _ _ _ H)
    as (x & s' & -> & Hne & Hx & Hk & Hmax).
  cbv beta in Hk. rewrite stop_exec, ReFacts.take_consumed in Hk.
  destruct (stops s') eqn:Es; [|done]. injection Hk as <-.
  exists x, s'. split; [done|]. split; [done|].
  split; [by apply exact_class|]. split; [by apply stops_spec|].
  split; [done|].
  intros name' post' Heq Hn' Hlen Hstop.
  apply exact_class in Hn'.
  specialize (Hmax name' post' Heq Hn' Hlen). cbv beta in Hmax.
  rewrite stop_exec in Hmax. apply stops_spec in Hstop.
  by rewrite Hstop in Hmax.
Qed.

Lemma name_exec_found name post (c : Re.captures) :
  name ≠ [] → Forall (λ a, is_name_char a) name → name_stop post →
  is_Some (Re.exec false
             (Re.Group 1 (Re.Plus is_name_char)
                ⋅ Re.Alt (Re.Lit (chars "?")) (Re.Alt Re.Eos (Re.Set1 is_space)))
             (name ++ post) c (λ _ c', Some c')).
Proof.
  intros Hne Hn Hstop.
  change (is_Some
            (Re.plus_then (Re.in_class false is_name_char) (name ++ post)
               (λ s', Re.exec false
                        (Re.Alt (Re.Lit (chars "?"))
                           (Re.Alt Re.Eos (Re.Set1 is_space)))
                        s' (<[1 := take (length (name ++ post) - length s')
                                     (name ++ post)]> c)
                        (λ _ c', Some c')))).
  apply ReFacts.plus_then_complete; [done|by apply exact_class|].
  rewrite stop_exec. apply stops_spec in Hstop. by rewrite Hstop.
Qed.

(** A match of the name pattern at the start of [s] captures the name of
    the greedy split. *)
Lemma name_capture_read s m :
  Re.match_here false user_name_re s = Some m →
  ∃ t ws name,
    s = chars "for" ++ t ∧ greedy_split t ws name ∧ m !! 1 = Some name.
Proof.
  unfold Re.match_here, user_name_re. intros H.
  change (match Re.lit_rest false (chars "for") s with
          | Some t =>
              Re.plus_then (Re.in_class false is_space) t
                (λ s1, Re.exec false
                         (Re.Group 1 (Re.Plus is_name_char)
                            ⋅ Re.Alt (Re.Lit (chars "?"))
                                (Re.Alt Re.Eos (Re.Set1 is_space)))
                         s1 ∅ (λ _ c', Some c'))
          | None => None
          end = Some m) in H.
  destruct (Re.lit_rest false (chars "for") s) as [t|] eqn:El; [|done].
  destruct (ReFacts.lit_rest_sound _ _ _ _ El) as (x & -> & Hx).
  apply lit_exact in Hx as ->.
  destruct (ReFacts.plus_then_greedy _ _ _ _ H)
    as (ws & t1 & -> & Hne & Hws & Hk & Hmax).
  cbv beta in Hk.
  destruct (name_exec_read _ _ _ Hk)
    as (name & post & -> & Hn1 & Hn2 & Hstop & -> & Hnmax).
  exists (ws ++ name ++ post), ws, name.
  split; [done|]. split; [|by rewrite lookup_insert_eq].
  split.
  - exists post. repeat split; try done. by apply exact_class.
  - intros ws' name' (post' & Heq & Hw1 & Hw2 & Hn1' & Hn2' & Hstop').
    destruct (decide (length ws' < length ws)) as [|Hge]; [by left|right].
    destruct (decide (length ws < length ws')) as [Hgt|Hle].
    + exfalso. apply exact_class in Hw2.
      specialize (Hmax ws' (name' ++ post') Heq Hw2 Hgt). cbv beta in Hmax.
      destruct (name_exec_found name' post' ∅ Hn1' Hn2' Hstop') as [m' Hm'].
      congruence.
    + assert (Hlen : length ws = length ws') by lia.
      split; [done|].
      apply app_inj_1 in Heq as [<- Heq]; [|done].
      destruct (decide (length name < length name')) as [Hlt|]; [|lia].
      exfalso. by eapply (Hnmax name' post').
Qed.

Lemma greedy_split_unique t ws name ws' name' :
  greedy_split t ws name → greedy_split t ws' name' →
  ws' = ws ∧ name' = name.
Proof.
  intros [Hsplit Hmax] [Hsplit' Hmax'].
  pose proof Hsplit as (post & Heq & _).
  pose proof Hsplit' as (post' & Heq' & _).
  destruct (Hmax ws' name' Hsplit') as [?|[Hw Hn]];
    destruct (Hmax' ws name Hsplit) as [?|[Hw' Hn']]; try lia.
  rewrite Heq in Heq'.
  apply app_inj_1 in Heq' as [-> Heq']; [|done].
  apply app_inj_1 in Heq' as [-> _]; [done|lia].
Qed.

Lemma name_capture_found t ws name :
  greedy_split t ws name →
  ∃ m, Re.match_here false user_name_re (chars "for" ++ t) = Some m
       ∧ m !! 1 = Some name.
Proof.
  intros Hg.
  pose proof Hg as [(post & -> & Hw1 & Hw2 & Hn1 & Hn2 & Hstop) _].
  destruct (name_phrase_found (chars "for" ++ ws ++ name ++ post) name)
    as [m Hm].
  { by exists ws, post. }
  exists m. split; [done|].
  destruct (name_capture_read _ _ Hm) as (t' & ws' & name' & Heq & Hg' & Hcap).
  apply app_inv_head in Heq. subst t'.
  by destruct (greedy_split_unique _ _ _ _ _ Hg Hg') as [_ ->].
Qed.

(** What [re.search] does with the name pattern: nothing when the phrase
    occurs nowhere; otherwise the greedy split of the leftmost place,
    and no other. *)
Lemma user_name_search q :
  (Re.search user_name_re q NOFLAG = None
   ↔ ¬ ∃ pre s name, chars q = pre ++ s ∧ name_phrase s name)
  ∧ (∀ m, Re.search user_name_re q NOFLAG = Some m →
      ∃ pre t ws name,
        chars q = pre ++ chars "for" ++ t
        ∧ none_before name_phrase (chars q) pre
        ∧ greedy_split t ws name ∧ m !! 1 = Some name)
  ∧ (∀ pre t ws name,
      chars q = pre ++ chars "for" ++ t →
      none_before name_phrase (chars q) pre →
      greedy_split t ws name →
      ∃ m, Re.search user_name_re q NOFLAG = Some m ∧ m !! 1 = Some name).
Proof.
  split; [|split].
  - unfold NOFLAG.
    apply (search_by_phrase false user_name_re name_phrase
             (λ m x, m !! 1 = Some x) q name_phrase_read name_phrase_found).
  - intros m Hm. unfold Re.search, NOFLAG in Hm.
    destruct (search_some_leftmost _ _ _ _ Hm) as (p & s' & Hq & Hm' & Hle).
    destruct (name_capture_read _ _ Hm') as (t & ws & name & -> & Hg & Hcap).
    exists p, t, ws, name. split; [done|]. split; [|done].
    intros p1 s1 x Hq1 Hlt Hp1.
    destruct (name_phrase_found _ _ Hp1) as [m1 Hm1].
    by rewrite (Hle _ _ Hq1 Hlt) in Hm1.
  - intros pre t ws name Hq Hfirst Hg.
    destruct (name_capture_found _ _ _ Hg) as (m & Hm & Hcap).
    exists m. split; [|done]. unfold Re.search, NOFLAG. rewrite Hq.
    apply ReFacts.search_leftmost; [|done].
    intros p1 s1 Heq Hlt. rewrite <- Hq in Heq.
    destruct (Re.match_here false user_name_re s1) as [m1|] eqn:E; [|done].
    destruct (name_phrase_read _ _ E) as (x & Hx & _).
    destruct (Hfirst p1 s1 x Heq Hlt Hx).
Qed.


Lemma strip_trims name : trimmed_of name (chars (strip (text name))).
Proof. rewrite strip_text, chars_text. apply strip_chars_spec. Qed.



(** *** The region and currency patterns *)

Lemma region_found ws1 code ws2 post :
  ws1 ≠ [] → Forall (λ a, is_space a) ws1 →
  code ≠ [] → Forall (λ a, is_word a) code →
  ws2 ≠ [] → Forall (λ a, is_space a) ws2 →
  is_Some (Re.match_here true region_re
             (chars "in" ++ ws1 ++ code ++ ws2 ++ chars "region" ++ post)).
Proof.
  intros H1 H2 H3 H4 H5 H6.
  replace (chars "in" ++ ws1 ++ code ++ ws2 ++ chars "region" ++ post)
    with ((chars "in" ++ ws1 ++ code ++ ws2 ++ chars "region") ++ post)
    by (by rewrite <- !(assoc_L (++))).
  eapply (ReFacts.match_here_complete _ _ _ _ (<[1 := code]> ∅)).
  unfold region_re.
  eapply Matches_seq; [reflexivity|apply M_Lit, lit_refl|].
  eapply Matches_seq; [reflexivity|apply M_Plus; [done|]|].
  { eapply Forall_impl; [exact H2|]. intros a Ha. by rewrite in_class_space. }
  eapply Matches_seq; [reflexivity|apply M_Group, M_Plus; [done|]|].
  { eapply Forall_impl; [exact H4|]. intros a Ha. by rewrite in_class_word. }
  eapply Matches_seq; [reflexivity|apply M_Plus; [done|]|].
  { eapply Forall_impl; [exact H6|]. intros a Ha. by rewrite in_class_space. }
  apply M_Lit, lit_refl.
Qed.

Lemma currency_found ws1 code rest :
  ws1 ≠ [] → Forall (λ a, is_space a) ws1 →
  length code = 3 → Forall (λ a, is_upper a) code →
  is_Some (Re.match_here false currency_re (chars "in" ++ ws1 ++ code ++ rest)).
Proof.
  intros H1 H2 H3 H4.
  replace (chars "in" ++ ws1 ++ code ++ rest)
    with ((chars "in" ++ ws1 ++ code) ++ rest)
    by (by rewrite <- !(assoc_L (++))).
  eapply (ReFacts.match_here_complete _ _ _ _ (<[1 := code]> ∅)).
  unfold currency_re.
  eapply Matches_seq; [reflexivity|apply M_Lit, lit_refl|].
  eapply Matches_seq; [reflexivity|apply M_Plus; [done|]|].
  { eapply Forall_impl; [exact H2|]. intros a Ha. by rewrite in_class_exact. }
  apply M_Group, M_Rep; [done|].
  eapply Forall_impl; [exact H4|]. intros a Ha. by rewrite in_class_exact.
Qed.

Ltac find_in_dict :=
  repeat (apply dict_set_other; [discriminate|]); apply dict_set_elem.

Lemma match_stage_region q m :
  Re.search region_re q IGNORECASE = Some m →
  ("region", Direct (VStr (capitalize (Re.group m 1)))) ∈ match_stage_of q.
Proof.
  intros H. unfold match_stage_of. rewrite H.
  destruct (Re.search currency_re q NOFLAG), (sex_of q),
    (Re.search date_re q IGNORECASE); try case_decide; find_in_dict.
Qed.

Lemma match_stage_currency q m :
  Re.search currency_re q NOFLAG = Some m →
  ("currency", Direct (VStr (upper (Re.group m 1)))) ∈ match_stage_of q.
Proof.
  intros H. unfold match_stage_of. rewrite H.
  destruct (Re.search region_re q IGNORECASE), (sex_of q),
    (Re.search date_re q IGNORECASE); try case_decide; find_in_dict.
Qed.

Lemma match_stage_date q m :
  Re.search date_re q IGNORECASE = Some m →
  ("disbursed_date",
   Ops [(if decide (lower (Re.group m 1) = "before") then "$lt" else "$gte",
         VStr (first_of_year (Re.group m 2)))]) ∈ match_stage_of q.
Proof.
  intros H. unfold match_stage_of. rewrite H.
  destruct (Re.search region_re q IGNORECASE), (Re.search currency_re q NOFLAG),
    (sex_of q); cbv zeta; case_decide; find_in_dict.
Qed.

Lemma in_match_stage_head q kv :
  kv ∈ match_stage_of q →
  ∃ rest, _build_pipeline q = Match (match_stage_of q) :: rest.
Proof.
  intros Hin. apply build_pipeline_head. intros E. rewrite E in Hin.
  by apply elem_of_nil in Hin.
Qed.

(** C6 (as amended). The region rule and the currency rule fire
    independently of each other: in a query that holds "in", white space,
    three upper-case letters, white space and "region", both [region] and
    [currency] are set, in the filter map and in the match stage alike. *)
Theorem region_and_currency_both_fire (q : string)
    (pre ws1 code ws2 post : list ascii) :
  chars q = pre ++ chars "in" ++ ws1 ++ code ++ ws2 ++ chars "region" ++ post →
  ws1 ≠ [] → Forall (λ a, is_space a) ws1 →
  length code = 3 → Forall (λ a, is_upper a) code →
  ws2 ≠ [] → Forall (λ a, is_space a) ws2 →
  (is_Some (_parse_filters q !! "region")
   ∧ is_Some (_parse_filters q !! "currency"))
  ∧ ∃ rest r c,
      _build_pipeline q = Match (match_stage_of q) :: rest
      ∧ ("region", Direct (VStr r)) ∈ match_stage_of q
      ∧ ("currency", Direct (VStr c)) ∈ match_stage_of q.
Proof.
  intros Hq H1 H2 H3 H4 H5 H6.
  assert (Hcode : code ≠ []) by (by destruct code).
  assert (Hword : Forall (λ a, Is_true (is_word a)) code)
    by (eapply Forall_impl; [exact H4|]; apply upper_is_word).
  destruct (ReFacts.search_complete true region_re pre _
              (region_found ws1 code ws2 post H1 H2 Hcode Hword H5 H6))
    as [mr Hr].
  destruct (ReFacts.search_complete false currency_re pre _
              (currency_found ws1 code (ws2 ++ chars "region" ++ post)
                 H1 H2 H3 H4))
    as [mc Hc].
  rewrite <- Hq in Hr, Hc.
  split.
  - rewrite parse_filters_region, parse_filters_currency.
    unfold Re.search, NOFLAG, IGNORECASE. rewrite Hr, Hc. split; by eexists.
  - destruct (in_match_stage_head q _ (match_stage_region q mr Hr)) as [rest ?].
    exists rest. do 2 eexists. split; [done|].
    split; [by apply match_stage_region|by apply match_stage_currency].
Qed.

Lemma region_and_currency_both_fire_witness :
  (is_Some (_parse_filters "loans in USD region" !! "region")
   ∧ is_Some (_parse_filters "loans in USD region" !! "currency"))
  ∧ ∃ rest r c,
      _build_pipeline "loans in USD region"
        = Match (match_stage_of "loans in USD region") :: rest
      ∧ ("region", Direct (VStr r)) ∈ match_stage_of "loans in USD region"
      ∧ ("currency", Direct (VStr c)) ∈ match_stage_of "loans in USD region".
Proof.
  apply (region_and_currency_both_fire "loans in USD region"
           (chars "loans ") (chars " ") (chars "USD") (chars " ") []).
  - reflexivity.
  - discriminate.
  - repeat constructor.
  - reflexivity.
  - repeat constructor.
  - discriminate.
  - repeat constructor.
Defined.

(** C6 (as stated) fails: "loans in USD region" sets [currency] as well
    as [region], in both extractors. *)
Lemma usd_region_sets_currency :
  _parse_filters "loans in USD region" !! "region" = Some (VStr "Usd")
  ∧ _parse_filters "loans in USD region" !! "currency" = Some (VStr "USD")
  ∧ match_stage_of "loans in USD region"
    = [("region", Direct (VStr "Usd")); ("currency", Direct (VStr "USD"))].
Proof. by vm_compute. Qed.

(** *** The date pattern *)

Lemma date_read x rest m :
  Matches true date_re x rest ∅ m → date_phrase (x ++ rest).
Proof.
  unfold date_re. intros H. read_match.
  all: match goal with H : Forall2 _ _ _ |- _ => apply lit_nocase in H end.
  all: repeat match goal with
         | H : Forall (λ a, Is_true (Re.in_class true is_space a)) _ |- _ =>
             setoid_rewrite in_class_space in H
         | H : Forall (λ a, Is_true (Re.in_class true is_digit a)) _ |- _ =>
             setoid_rewrite in_class_digit in H
         end.
  all: unfold date_phrase; rewrite <- !(assoc_L (++)).
  all: do 4 eexists; split; [reflexivity|].
  all: split; [|done].
  - by left.
  - by right.
Qed.

Lemma rep_rest_exact n (ok : ascii → bool) x rest :
  length x = n → Forall (λ a, ok a) x →
  Re.rep_rest n ok (x ++ rest) = Some rest.
Proof. intros <-. apply ReFacts.rep_rest_complete. Qed.

Lemma before_is_not_after kw rest :
  map lower_char kw = chars "after" →
  Re.lit_rest true (chars "before") (kw ++ rest) = None.
Proof.
  destruct kw as [|a kw]; [done|]. intros [= Ha _]. simpl.
  unfold Re.same_char. case_bool_decide as Hb; [|done].
  rewrite Ha in Hb. by vm_compute in Hb.
Qed.

Lemma date_here kw ws year post :
  (map lower_char kw = chars "before" ∨ map lower_char kw = chars "after") →
  ws ≠ [] → Forall (λ a, is_space a) ws →
  length year = 4 → Forall (λ a, is_digit a) year →
  Re.match_here true date_re (kw ++ ws ++ year ++ post)
  = Some (<[2 := year]> (<[1 := kw]> ∅)).
Proof.
  intros Hkw Hws1 Hws2 Hlen Hyear.
  assert (Htail : ∀ c : Re.captures,
    Re.plus_then (Re.in_class true is_space) (ws ++ year ++ post)
      (λ s',
         match Re.rep_rest 4 (Re.in_class true is_digit) s' with
         | Some s'' => Some (<[2 := take (length s' - length s'') s']> c)
         | None => None
         end)
    = Some (<[2 := year]> c)).
  { intros c. apply ReFacts.plus_then_stop; [done| | |].
    - eapply Forall_impl; [exact Hws2|]. intros a Ha. by rewrite in_class_space.
    - destruct year as [|d year]; [done|]. simpl.
      apply Forall_cons in Hyear as [Hd _].
      by rewrite in_class_space, (digit_not_space d Hd).
    - rewrite rep_rest_exact, ReFacts.take_consumed; [done|done|].
      eapply Forall_impl; [exact Hyear|]. intros a Ha. by rewrite in_class_digit. }
  unfold Re.match_here, date_re. cbn [Re.exec].
  destruct Hkw as [Hkw|Hkw].
  - rewrite (ReFacts.lit_rest_complete true (chars "before") kw)
      by (by apply lit_nocase_intro).
    by rewrite ReFacts.take_consumed, Htail.
  - rewrite before_is_not_after by done.
    rewrite (ReFacts.lit_rest_complete true (chars "after") kw)
      by (by apply lit_nocase_intro).
    by rewrite ReFacts.take_consumed, Htail.
Qed.

Lemma date_phrase_matches s :
  date_phrase s → is_Some (Re.match_here true date_re s).
Proof.
  intros (kw & ws & year & rest & -> & Hkw & H1 & H2 & H3 & H4).
  by rewrite date_here.
Qed.

(** *** The year text *)

Lemma digit_parses a d :
  is_digit a → ∃ d', uint_of_char a (Some d) = Some d'.
Proof. by_cases_on_char a; eauto. Qed.

Lemma digits_parse l :
  Forall (λ a, is_digit a) l → ∃ d, NilEmpty.uint_of_string (text l) = Some d.
Proof.
  induction 1 as [|a l Ha _ [d IH]]; simpl; [by eexists|].
  rewrite IH. by apply digit_parses.
Qed.

(** A digit string without a leading zero is printed back as it was
    read. *)
Lemma str_of_int_of_digits a l :
  is_digit a → a ≠ "0"%char → Forall (λ a, is_digit a) l →
  str_of_int (int_of_digits (text (a :: l))) = text (a :: l).
Proof.
  intros Ha Hnz Hl. destruct (digits_parse l Hl) as [d Hd].
  unfold str_of_int, int_of_digits. simpl. rewrite Hd.
  destruct (digit_parses a d Ha) as [d' Hd']. rewrite Hd'.
  rewrite Unsigned.to_of.
  assert (Hs : NilEmpty.string_of_uint d' = String a (text l)).
  { apply NilEmpty.sus. simpl. by rewrite Hd. }
  apply uint_of_char_spec in Hd'.
  destruct Hd' as [[-> ->]|Hd']; [done|].
  repeat destruct Hd' as [[-> ->]|Hd']; try exact Hs.
  destruct Hd' as [-> ->]. exact Hs.
Qed.

(** C7 (as amended). In a query of ASCII characters the date rule reads
    the leftmost phrase made of "before" or "after" (in any letter case),
    white space and four digits, and no other.  When that phrase has the
    year YYYY, not starting with 0, the match stage opens the pipeline
    and holds [disbursed_date] with the condition [$lt] "YYYY-01-01" for
    "before" and [$gte] "YYYY-01-01" for "after". *)
Theorem date_condition_of_first_phrase (q : string)
    (pre kw ws year post : list ascii) :
  isascii q = true →
  chars q = pre ++ kw ++ ws ++ year ++ post →
  ws ≠ [] → Forall (λ a, is_space a) ws →
  length year = 4 → Forall (λ a, is_digit a) year →
  head year ≠ Some "0"%char →
  (∀ p s, chars q = p ++ s → length p < length pre → ¬ date_phrase s) →
  (map lower_char kw = chars "before" →
   ∃ rest,
     _build_pipeline q = Match (match_stage_of q) :: rest
     ∧ ("disbursed_date", Ops [("$lt", VStr (text year +:+ "-01-01"))])
         ∈ match_stage_of q)
  ∧ (map lower_char kw = chars "after" →
     ∃ rest,
       _build_pipeline q = Match (match_stage_of q) :: rest
       ∧ ("disbursed_date", Ops [("$gte", VStr (text year +:+ "-01-01"))])
           ∈ match_stage_of q).
Proof.
  intros _ Hq Hws1 Hws2 Hlen Hyear Hnz Hfirst.
  assert (Hfound : ∀ op,
            (map lower_char kw = chars "before" ∧ op = "$lt")
            ∨ (map lower_char kw = chars "after" ∧ op = "$gte") →
            ("disbursed_date", Ops [(op, VStr (text year +:+ "-01-01"))])
              ∈ match_stage_of q).
  { intros op Hop.
    assert (Hkw : map lower_char kw = chars "before"
                  ∨ map lower_char kw = chars "after") by tauto.
    pose proof (date_here kw ws year post Hkw Hws1 Hws2 Hlen Hyear) as Hm.
    assert (Hs : Re.search date_re q IGNORECASE
                 = Some (<[2 := year]> (<[1 := kw]> ∅))).
    { unfold Re.search, IGNORECASE. rewrite Hq.
      apply ReFacts.search_leftmost; [|done].
      intros p1 s1 Heq Hlt. rewrite <- Hq in Heq.
      destruct (Re.match_here true date_re s1) eqn:E; [|done].
      destruct (ReFacts.match_here_sound _ _ _ _ E) as (x & rest & -> & HM).
      destruct (Hfirst p1 _ Heq Hlt). by apply (date_read _ _ _ HM). }
    pose proof (match_stage_date q _ Hs) as Hin.
    unfold Re.group in Hin.
    rewrite lookup_insert_eq, lookup_insert_ne, lookup_insert_eq in Hin by done.
    simpl in Hin.
    assert (Hy : first_of_year (text year) = text year +:+ "-01-01").
    { unfold first_of_year. destruct year as [|d year]; [done|].
      apply Forall_cons in Hyear as [Hd Hyear].
      rewrite str_of_int_of_digits; [done|done| |done].
      intros ->. by apply Hnz. }
    rewrite Hy in Hin.
    assert (Hl : lower (text kw) = text (map lower_char kw))
      by (unfold lower; by rewrite chars_text).
    rewrite Hl in Hin.
    destruct Hop as [[Hb ->]|[Ha ->]].
    - rewrite Hb in Hin. by rewrite decide_True in Hin.
    - rewrite Ha in Hin. by rewrite decide_False in Hin. }
  split; intros Hkw.
  - assert (Hin := Hfound "$lt" (or_introl (conj Hkw eq_refl))).
    destruct (in_match_stage_head q _ Hin) as [rest Hp]. eauto.
  - assert (Hin := Hfound "$gte" (or_intror (conj Hkw eq_refl))).
    destruct (in_match_stage_head q _ Hin) as [rest Hp]. eauto.
Qed.

Ltac no_date_phrase_before :=
  let p := fresh "p" in
  let s := fresh "s" in
  let Heq := fresh "Heq" in
  let Hlt := fresh "Hlt" in
  let Hph := fresh "Hph" in
  intros p s Heq Hlt Hph; apply date_phrase_matches in Hph;
  repeat (destruct p as [|? p];
          [ simpl in Heq; subst s; vm_compute in Hph;
            destruct Hph; discriminate
          | simpl in Heq; injection Heq as <- Heq; simpl in Hlt ]);
  simpl in Hlt; lia.

Lemma date_condition_of_first_phrase_witness :
  ∃ rest,
    _build_pipeline "loans before 2023"
      = Match (match_stage_of "loans before 2023") :: rest
    ∧ ("disbursed_date", Ops [("$lt", VStr "2023-01-01")])
        ∈ match_stage_of "loans before 2023".
Proof.
  refine (proj1 (date_condition_of_first_phrase "loans before 2023"
                   (chars "loans ") (chars "before") (chars " ")
                   (chars "2023") [] _ _ _ _ _ _ _ _) _).
  - reflexivity.
  - reflexivity.
  - discriminate.
  - repeat constructor.
  - reflexivity.
  - repeat constructor.
  - discriminate.
  - no_date_phrase_before.
  - reflexivity.
Defined.

(** C7 (as stated) fails: of two date phrases only the leftmost is read,
    so this query holds "before 2023" and gets no [$lt] condition. *)
Lemma second_date_phrase_is_dropped :
  match_stage_of "loans after 2020 and before 2023"
    = [("disbursed_date", Ops [("$gte", VStr "2020-01-01")])]
  ∧ ("disbursed_date", Ops [("$lt", VStr "2023-01-01")])
      ∉ match_stage_of "loans after 2020 and before 2023".
Proof.
  assert (H : match_stage_of "loans after 2020 and before 2023"
              = [("disbursed_date", Ops [("$gte", VStr "2020-01-01")])])
    by (by vm_compute).
  split; [done|]. rewrite H. intros Hin.
  apply list_elem_of_singleton in Hin. discriminate Hin.
Qed.


(** ** The record store *)

Lemma py_eq_str x s : py_eq x (VStr s) = true ↔ x = VStr s.
Proof.
  destruct x as [a|n|[]|b|]; simpl; try (split; discriminate).
  rewrite bool_decide_eq_true. split; congruence.
Qed.

Lemma holds_spec r k v :
  holds r k v ↔ ∃ x, r !! k = Some x ∧ py_eq x v = true.
Proof.
  unfold holds. destruct (r !! k) as [x|].
  - split; [eauto|]. by intros (? & [= <-] & ?).
  - split; [done|]. by intros (? & ? & _).
Qed.

Lemma record_matches_spec (r : record) (filter_dict : gmap string value) :
  record_matches r filter_dict = true ↔ agrees r filter_dict.
Proof.
  unfold record_matches, agrees, map_Forall, holds, py_ne.
  rewrite forallb_forall. split.
  - intros H k v Hk.
    assert (Hin : In (k, v) (map_to_list filter_dict))
      by (apply list_elem_of_In, elem_of_map_to_list, Hk).
    specialize (H (k, v) Hin). simpl in H.
    destruct (r !! k) as [w|]; [|discriminate].
    by rewrite negb_involutive in H.
  - intros H [k v] Hin.
    apply list_elem_of_In, elem_of_map_to_list in Hin.
    specialize (H k v Hin). destruct (r !! k) as [w|]; [|done].
    by rewrite negb_involutive.
Qed.

(** [find] is the store filtered, in its order. *)
Lemma find_filter self (f : gmap string value) :
  find self (Some f) = filter (λ r, agrees r f) (data self).
Proof.
  simpl.
  apply (list_filter_iff (λ r, Is_true (record_matches r f)) (λ r, agrees r f)).
  intros r. by rewrite Is_true_true, record_matches_spec.
Qed.

Lemma filter_all {A : Type} (P : A → Prop) `{!∀ x, Decision (P x)} (l : list A) :
  (∀ x, x ∈ l → P x) → filter P l = l.
Proof.
  induction l as [|x l IH]; intros Hall; [done|].
  rewrite filter_cons_True by apply Hall, list_elem_of_here.
  f_equal. apply IH. intros y Hy. by apply Hall, list_elem_of_further.
Qed.

(** C5 (as amended). [find] with a filter map returns, in store order,
    exactly the records that hold every key of the filter with a value
    that Python's [==] equates with the filter's: the same string, or the
    same number whatever the type of the two numbers, and never [nan].
    An empty filter returns every record; a record that lacks a filter
    key is left out, and [find] has no error result at all. *)
Theorem find_spec (self : LoanDatabase) (filter_dict : gmap string value) :
  (∀ r, r ∈ find self (Some filter_dict)
        ↔ r ∈ data self
          ∧ ∀ k v, filter_dict !! k = Some v →
                   ∃ x, r !! k = Some x ∧ py_eq x v = true)
  ∧ find self (Some filter_dict)
    = filter (λ r, agrees r filter_dict) (data self)
  ∧ find self (Some ∅) = data self
  ∧ (∀ r k, is_Some (filter_dict !! k) → r !! k = None →
            r ∉ find self (Some filter_dict))
  ∧ (∀ r k s, r ∈ find self (Some filter_dict) →
              filter_dict !! k = Some (VStr s) → r !! k = Some (VStr s))
  ∧ (∀ r k, r ∈ find self (Some filter_dict) →
            filter_dict !! k ≠ Some (VFloat S754_nan)).
Proof.
  assert (Hmem : ∀ r, r ∈ find self (Some filter_dict)
             ↔ r ∈ data self
               ∧ ∀ k v, filter_dict !! k = Some v →
                        ∃ x, r !! k = Some x ∧ py_eq x v = true).
  { intros r. rewrite find_filter, list_elem_of_filter. unfold agrees, map_Forall.
    setoid_rewrite holds_spec. tauto. }
  split; [exact Hmem|]. split; [apply find_filter|]. split; [|split; [|split]].
  - rewrite find_filter. apply filter_all. intros r _ k v Hk.
    by rewrite lookup_empty in Hk.
  - intros r k [v Hk] Hr Hin. apply Hmem in Hin as [_ Hall].
    destruct (Hall k v Hk) as (x & Hx & _). congruence.
  - intros r k s Hin Hk. apply Hmem in Hin as [_ Hall].
    destruct (Hall k _ Hk) as (x & Hx & Heq). apply py_eq_str in Heq.
    by subst.
  - intros r k Hin Hk. apply Hmem in Hin as [_ Hall].
    destruct (Hall k _ Hk) as (x & _ & Heq).
    by destruct x as [a|n|[]|b|].
Qed.

(** C5 (as stated) fails: the filter value 15000.0, a float, finds the
    record that holds the int 15000, which is not the same value of the
    same type; and a record that holds [nan] is not found by the filter
    that asks for that very value. *)
Lemma find_is_not_type_strict :
  find {| data := [ {[ "loan_amount" := VInt 15000 ]} ] |}
    (Some {[ "loan_amount" := VFloat float_15000 ]})
  = [ {[ "loan_amount" := VInt 15000 ]} ]
  ∧ VInt 15000 ≠ VFloat float_15000
  ∧ find {| data := [ {[ "pending" := VFloat S754_nan ]} ] |}
      (Some {[ "pending" := VFloat S754_nan ]})
    = [].
Proof. split; [by vm_compute|]. split; [discriminate|by vm_compute]. Qed.

Section InterpreterFacts.

Variable pandas_agg :
  Pd.DataFrame → list (option string) → pydict Pd.agg_arg → result Pd.DataFrame.

(** ** The aggregate path on the pipelines that the extractor builds *)

(** C1. On the empty store the query "average loan amount" builds the
    single group stage with [_id] None and [$avg], and [aggregate]
    raises on it: the entry point returns the error text, not the
    record [{average_loan: 0}]. *)
Theorem average_on_empty_store_raises :
  _build_pipeline "average loan amount"
    = [Group IdNone [("average_loan", [("$avg", VStr "$loan_amount")])]]
  ∧ ∃ e, _aggregate_loans pandas_agg "average loan amount"
           {| database := empty_store |}
         = (ErrorText "Error executing aggregation: " e,
            {| database := empty_store |}).
Proof. split; [reflexivity|]. eexists. reflexivity. Qed.

Lemma groupby_none (df : Pd.DataFrame) :
  Pd.groupby df [None]
  = match Pd.rows df with
    | [] => Ok ()
    | _ :: _ => Raise (TypeError "'NoneType' object is not callable")
    end.
Proof.
  unfold Pd.groupby. simpl. rewrite andb_false_r. simpl.
  by destruct (Pd.rows df).
Qed.

(** C3. For every store, the pipeline made of the single group stage
    with [_id] None and the aggregate [count] makes [aggregate] raise;
    no record [{count: N}] is returned. *)
Theorem count_group_raises (self : LoanDatabase) :
  ∃ e, aggregate pandas_agg self [count_stage] = Raise e.
Proof.
  unfold aggregate, count_stage. cbn [for_each run_stage mbind result_bind].
  cbn [group_cols_of]. rewrite groupby_none.
  unfold Pd.of_records. cbn [Pd.rows].
  destruct (data self); cbn; eauto.
Qed.

(** C4. On the three-record store the query "total loans for women in
    Central region" builds the match stage [{region: Central, sex:
    Female}] followed by the group stage with [_id] None and [$sum] of
    [$loan_amount]; [aggregate] raises on the group stage, so the entry
    point returns the error text and not [[{total_amount: 22000}]]. *)
Theorem scenario_total_for_women :
  _build_pipeline "total loans for women in Central region"
    = [Match [("region", Direct (VStr "Central"));
              ("sex", Direct (VStr "Female"))];
       Group IdNone [("total_amount", [("$sum", VStr "$loan_amount")])]]
  ∧ ∃ e, _aggregate_loans pandas_agg "total loans for women in Central region"
           {| database := scenario_store |}
         = (ErrorText "Error executing aggregation: " e,
            {| database := scenario_store |}).
Proof.
  split; [by vm_compute|].
  exists (TypeError "'NoneType' object is not callable"). by vm_compute.
Qed.

(** ** Symbols outside the [if]/[elif] chains *)

Lemma for_each_cons {A S : Type} (body : S → A → result S) x l s :
  for_each body (x :: l) s
  = match body s x with
    | Ok s' => for_each body l s'
    | Raise e => Raise e
    end.
Proof. reflexivity. Qed.

Lemma for_each_map {A S : Type} (body : S → A → result S) (g : A → A) l s :
  (∀ s x, body s (g x) = body s x) →
  for_each body (map g l) s = for_each body l s.
Proof.
  intros Hg. revert s. induction l as [|x l IH]; intros s; [done|].
  cbn [map]. rewrite !for_each_cons, Hg. destruct (body s x); auto.
Qed.

Lemma apply_op_unknown field res op v :
  known_op op = false → apply_op field res (op, v) = Ok res.
Proof.
  intros H. unfold apply_op.
  repeat case_decide; subst; try done; by vm_compute in H.
Qed.

Lemma apply_ops_prune field ops res :
  for_each (apply_op field) (filter (λ kv, known_op kv.1) ops) res
  = for_each (apply_op field) ops res.
Proof.
  revert res. induction ops as [|[op v] ops IH]; intros res; [done|].
  destruct (known_op op) eqn:E.
  - rewrite filter_cons_True by (simpl; rewrite E; exact I).
    rewrite !for_each_cons.
    destruct (apply_op field res (op, v)); auto.
  - rewrite filter_cons_False by (simpl; rewrite E; exact id).
    rewrite for_each_cons, apply_op_unknown by done. apply IH.
Qed.

Lemma add_agg_unknown output_field d op v :
  known_agg op = false → add_agg output_field d (op, v) = d.
Proof.
  intros H. unfold add_agg.
  repeat case_decide; subst; try done; by vm_compute in H.
Qed.

Lemma add_aggs_prune output_field agg_expr d :
  fold_left (add_agg output_field) (filter (λ e, known_agg e.1) agg_expr) d
  = fold_left (add_agg output_field) agg_expr d.
Proof.
  revert d. induction agg_expr as [|[op v] l IH]; intros d; [done|].
  destruct (known_agg op) eqn:E.
  - rewrite filter_cons_True by (simpl; rewrite E; exact I).
    cbn [fold_left]. apply IH.
  - rewrite filter_cons_False by (simpl; rewrite E; exact id).
    cbn [fold_left]. rewrite add_agg_unknown by done. apply IH.
Qed.

Lemma build_agg_dict_prune aggs :
  build_agg_dict (map (λ kv, (kv.1, filter (λ e, known_agg e.1) kv.2)) aggs)
  = build_agg_dict aggs.
Proof.
  unfold build_agg_dict. generalize (@nil (string * Pd.agg_arg)).
  induction aggs as [|[o e] aggs IH]; intros d; [done|].
  simpl. rewrite add_aggs_prune. apply IH.
Qed.

Lemma run_stage_prune res st :
  run_stage pandas_agg res (prune_stage st) = run_stage pandas_agg res st.
Proof.
  destruct st as [conds|group_by aggs|fields|]; simpl; try done.
  - apply (for_each_map apply_condition).
    intros s [field [v|ops]]; simpl; [done|]. apply apply_ops_prune.
  - by rewrite build_agg_dict_prune.
Qed.

(** C2 (as amended). A match entry whose operator symbol is outside
    [$eq], [$gt], [$gte], [$lt], [$lte] and an aggregate entry whose
    function is outside [$sum], [$avg] are passed over: the pipeline
    gives the same outcome as with those entries removed.  The entry
    point catches whatever [aggregate] raises and returns it as the
    text "Error executing aggregation: ...". *)
Theorem unknown_symbols_ignored (self : LoanDatabase) (pipeline : list stage) :
  aggregate pandas_agg self (map prune_stage pipeline)
    = aggregate pandas_agg self pipeline
  ∧ ∀ q agent, ∃ out,
      _aggregate_loans pandas_agg q agent = (out, agent)
      ∧ ∀ e, aggregate pandas_agg (database agent) (_build_pipeline q) = Raise e
             → out = ErrorText "Error executing aggregation: " e.
Proof.
  split.
  - unfold aggregate.
    by rewrite (for_each_map (run_stage pandas_agg) prune_stage)
      by (intros; apply run_stage_prune).
  - intros q agent. unfold _aggregate_loans.
    destruct (aggregate _ _ _) as [rs|e0]; eexists; (split; [done|]);
      intros e He; congruence.
Qed.

End InterpreterFacts.

(** ** The two paths read the store and nothing else *)

Lemma fresh_unused (h : Obj.heap) : h !! fresh (dom h) = None.
Proof. apply not_elem_of_dom, is_fresh. Qed.

Lemma items_insert_ne (h : Obj.heap) l o xs :
  l ≠ xs → Obj.items (<[l := o]> h) xs = Obj.items h xs.
Proof. intros Hne. unfold Obj.items. by rewrite lookup_insert_ne. Qed.

(** Writing a list where no dict was leaves every dict as it is. *)
Lemma entries_insert_list (h : Obj.heap) l xs d :
  (∀ r, h !! l ≠ Some (Obj.PyDict r)) →
  Obj.entries (<[l := Obj.PyList xs]> h) d = Obj.entries h d.
Proof.
  intros Hl. unfold Obj.entries. destruct (decide (l = d)) as [->|Hne].
  - rewrite lookup_insert_eq. destruct (h !! d) as [[|r]|] eqn:E; try done.
    by destruct (Hl r).
  - by rewrite lookup_insert_ne.
Qed.

Lemma filter_map {A B : Type} (P : B → Prop) `{!∀ x, Decision (P x)}
    (g : A → B) (l : list A) :
  filter P (map g l) = map g (filter (λ x, P (g x)) l).
Proof.
  induction l as [|x l IH]; [done|]. cbn [map].
  destruct (decide (P (g x))) as [Hx|Hx].
  - rewrite !filter_cons_True by done. cbn [map]. by f_equal.
  - by rewrite !filter_cons_False.
Qed.

(** The loop of [find] ends when it has walked the list, having appended
    the matching items to [results] and touched nothing else. *)
Lemma find_loop_runs fuel self f results i h acc :
  results ≠ Obj.data self →
  h !! results = Some (Obj.PyList acc) →
  length (Obj.items h (Obj.data self)) - i < fuel →
  Obj.find_loop fuel self f results i h
  = Some (<[results :=
              Obj.PyList
                (acc ++ filter (λ r, record_matches (Obj.entries h r) f)
                          (drop i (Obj.items h (Obj.data self))))]> h).
Proof.
  intros Hne. revert i h acc.
  induction fuel as [|fuel IH]; intros i h acc Hres Hfuel; [lia|].
  cbn [Obj.find_loop].
  destruct (Obj.items h (Obj.data self) !! i) as [record|] eqn:Ei.
  - pose proof (lookup_lt_Some _ _ _ Ei) as Hi.
    rewrite (drop_S _ _ _ Ei).
    destruct (record_matches (Obj.entries h record) f) eqn:Em.
    + rewrite filter_cons_True by (by rewrite Em).
      assert (Hitems : Obj.items (Obj.append results record h) (Obj.data self)
                       = Obj.items h (Obj.data self))
        by (by apply items_insert_ne).
      assert (Hentries : ∀ r, Obj.entries (Obj.append results record h) r
                              = Obj.entries h r).
      { intros r. apply entries_insert_list. intros d. by rewrite Hres. }
      assert (Hacc : Obj.append results record h
                     = <[results := Obj.PyList (acc ++ [record])]> h).
      { unfold Obj.append, Obj.items. by rewrite Hres. }
      rewrite (IH (S i) _ (acc ++ [record]));
        [|by rewrite Hacc, lookup_insert_eq|rewrite Hitems; lia].
      rewrite Hitems.
      rewrite (list_filter_iff
                 (λ r, Is_true (record_matches
                                  (Obj.entries (Obj.append results record h) r)
                                  f))
                 (λ r, Is_true (record_matches (Obj.entries h r) f)))
        by (intros r; by rewrite Hentries).
      rewrite Hacc, insert_insert_eq, <- (assoc_L (++)). done.
    + rewrite filter_cons_False by (rewrite Em; exact id).
      apply IH; [done|lia].
  - apply lookup_ge_None in Ei. rewrite drop_ge by done.
    rewrite filter_nil, app_nil_r. by rewrite insert_id.
Qed.

(** [find] with a filter makes one new list, of the matching dicts of
    the store in their order, and leaves every other object alone. *)
Lemma find_allocates fuel self f h store :
  h !! Obj.data self = Some (Obj.PyList store) →
  length store < fuel →
  Obj.find fuel self (Some f) h
  = Some (fresh (dom h),
          <[fresh (dom h) :=
              Obj.PyList (filter (λ r, record_matches (Obj.entries h r) f)
                            store)]> h).
Proof.
  intros Hdata Hfuel. cbn [Obj.find Obj.new_list].
  set (results := fresh (dom h)).
  assert (Hfresh : h !! results = None) by apply fresh_unused.
  assert (Hne : results ≠ Obj.data self).
  { intros E. rewrite E, Hdata in Hfresh. discriminate Hfresh. }
  assert (Hitems : Obj.items (<[results := Obj.PyList []]> h) (Obj.data self)
                   = store).
  { rewrite items_insert_ne by done. unfold Obj.items. by rewrite Hdata. }
  rewrite (find_loop_runs fuel self f results 0 _ []);
    [|done|by rewrite lookup_insert_eq|rewrite Hitems; lia].
  cbn [mbind option_bind]. rewrite insert_insert_eq, Hitems. cbn [app drop].
  do 4 f_equal. apply list_filter_iff. intros r.
  rewrite entries_insert_list; [done|]. intros d. by rewrite Hfresh.
Qed.

(** What the find tool writes is what [find] on the contents of the
    store gives. *)
Lemma contents_of_results (h : Obj.heap) results f store :
  h !! results = None →
  Obj.contents
    (<[results :=
         Obj.PyList (filter (λ r, record_matches (Obj.entries h r) f) store)]> h)
    results
  = filter (λ r, record_matches r f) (map (Obj.entries h) store).
Proof.
  intros Hfresh. unfold Obj.contents, Obj.items. rewrite lookup_insert_eq.
  rewrite (filter_map (λ r, Is_true (record_matches r f))).
  apply map_ext. intros r.
  apply entries_insert_list. intros d. by rewrite Hfresh.
Qed.

Lemma contents_insert_fresh (h : Obj.heap) l xs store data :
  h !! l = None → h !! data = Some (Obj.PyList store) →
  Obj.contents (<[l := Obj.PyList xs]> h) data = Obj.contents h data.
Proof.
  intros Hfresh Hdata.
  assert (Hne : l ≠ data) by (intros ->; rewrite Hdata in Hfresh; done).
  unfold Obj.contents. rewrite items_insert_ne by done.
  apply map_ext. intros r.
  apply entries_insert_list. intros d. by rewrite Hfresh.
Qed.

Section ObjectFacts.

Variable pandas_agg :
  Pd.DataFrame → list (option string) → pydict Pd.agg_arg → result Pd.DataFrame.

Lemma aggregate_of_contents self pipeline (h : Obj.heap) :
  Obj.aggregate pandas_agg self pipeline h
  = (aggregate pandas_agg {| data := Obj.contents h (Obj.data self) |} pipeline,
     h).
Proof. reflexivity. Qed.

Lemma aggregate_loans_of_contents q self (h : Obj.heap) :
  Obj._aggregate_loans pandas_agg q self h
  = ((_aggregate_loans pandas_agg q
        {| database :=
             {| data := Obj.contents h (Obj.data (Obj.database self)) |} |}).1,
     h).
Proof.
  unfold Obj._aggregate_loans, _aggregate_loans.
  rewrite aggregate_of_contents. cbn [database].
  by destruct (aggregate _ _ _).
Qed.

(** C9. The store is a list object on the heap and the loop of [find] is
    given enough steps to walk it.  Then the find tool returns, and run
    again on the heap that it left it returns the same output; the
    aggregate tool gives the same output before and after, and leaves the
    heap exactly as it found it.  The find tool makes one new list for its
    results and changes no object that was there before, so the list of
    the store and every dict in it are as they were, and the contents of
    the store are the same after each run.  Both outputs are those that
    the tools compute from the contents of the store alone. *)
Theorem tools_are_repeatable (q : string) (self : Obj.QueryAgent)
    (h : Obj.heap) (store : list Obj.ref) (fuel : nat) :
  h !! Obj.data (Obj.database self) = Some (Obj.PyList store) →
  length store < fuel →
  let data_ref := Obj.data (Obj.database self) in
  let agent := {| database := {| data := Obj.contents h data_ref |} |} in
  ∃ out h1 h2 agg,
    Obj._find_loans fuel q self h = Some (out, h1)
    ∧ Obj._find_loans fuel q self h1 = Some (out, h2)
    ∧ Obj._aggregate_loans pandas_agg q self h = (agg, h)
    ∧ Obj._aggregate_loans pandas_agg q self h1 = (agg, h1)
    ∧ (∀ l, is_Some (h !! l) → h1 !! l = h !! l ∧ h2 !! l = h !! l)
    ∧ Obj.contents h1 data_ref = Obj.contents h data_ref
    ∧ Obj.contents h2 data_ref = Obj.contents h data_ref
    ∧ out = (_find_loans q agent).1
    ∧ agg = (_aggregate_loans pandas_agg q agent).1.
Proof.
  intros Hdata Hfuel. cbv zeta.
  set (f := _parse_filters q).
  set (l1 := fresh (dom h)).
  set (x1 := filter (λ r, record_matches (Obj.entries h r) f) store).
  set (h1 := <[l1 := Obj.PyList x1]> h).
  assert (Hl1 : h !! l1 = None) by apply fresh_unused.
  assert (Hdata1 : h1 !! Obj.data (Obj.database self) = Some (Obj.PyList store)).
  { unfold h1. rewrite lookup_insert_ne; [done|].
    intros E. rewrite E, Hdata in Hl1. discriminate Hl1. }
  set (l2 := fresh (dom h1)).
  set (x2 := filter (λ r, record_matches (Obj.entries h1 r) f) store).
  set (h2 := <[l2 := Obj.PyList x2]> h1).
  assert (Hl2 : h1 !! l2 = None) by apply fresh_unused.
  assert (Hc1 : Obj.contents h1 (Obj.data (Obj.database self))
                = Obj.contents h (Obj.data (Obj.database self)))
    by (by eapply contents_insert_fresh).
  assert (Hc2 : Obj.contents h2 (Obj.data (Obj.database self))
                = Obj.contents h (Obj.data (Obj.database self))).
  { rewrite <- Hc1. by eapply contents_insert_fresh. }
  assert (Hstore : ∀ h', h' !! Obj.data (Obj.database self)
                         = Some (Obj.PyList store) →
             map (Obj.entries h') store
             = Obj.contents h' (Obj.data (Obj.database self))).
  { intros h' Hh'. unfold Obj.contents, Obj.items. by rewrite Hh'. }
  assert (Hout1 : Obj.contents h1 l1
                  = find {| data := Obj.contents h (Obj.data (Obj.database self)) |}
                      (Some f)).
  { unfold h1, x1. rewrite contents_of_results by done.
    cbn [find data]. by rewrite Hstore. }
  assert (Hout2 : Obj.contents h2 l2 = Obj.contents h1 l1).
  { rewrite Hout1. unfold h2, x2. rewrite contents_of_results by done.
    cbn [find data]. by rewrite Hstore, Hc1. }
  exists (JsonRecords (Obj.contents h1 l1)), h1, h2,
    (_aggregate_loans pandas_agg q
       {| database :=
            {| data := Obj.contents h (Obj.data (Obj.database self)) |} |}).1.
  split; [|split; [|split; [|split; [|split; [|split; [|split; [|split]]]]]]].
  - unfold Obj._find_loans. cbv zeta. fold f.
    by rewrite (find_allocates fuel _ f h store Hdata Hfuel).
  - unfold Obj._find_loans. cbv zeta. fold f.
    rewrite (find_allocates fuel _ f h1 store Hdata1 Hfuel).
    cbn [mbind option_bind]. fold l2 x2 h2. by rewrite Hout2.
  - apply aggregate_loans_of_contents.
  - rewrite aggregate_loans_of_contents. by rewrite Hc1.
  - intros l [o Ho].
    assert (Hne1 : l1 ≠ l) by (intros <-; rewrite Ho in Hl1; done).
    assert (H1 : h1 !! l = h !! l) by (unfold h1; by rewrite lookup_insert_ne).
    split; [done|]. unfold h2. rewrite lookup_insert_ne; [done|].
    intros <-. rewrite H1, Ho in Hl2. done.
  - done.
  - done.
  - by rewrite Hout1.
  - done.
Qed.

End ObjectFacts.

Lemma tools_are_repeatable_witness :
  let female : record := {[ "sex" := VStr "Female"; "loan_amount" := VInt 22000 ]} in
  let male : record := {[ "sex" := VStr "Male"; "loan_amount" := VInt 15000 ]} in
  let h : Obj.heap :=
    {[ 1%positive := Obj.PyList [2%positive; 3%positive];
       2%positive := Obj.PyDict female;
       3%positive := Obj.PyDict male ]} in
  let self := {| Obj.database := {| Obj.data := 1%positive |} |} in
  let pandas_agg := λ _ _ _, Raise (ValueError "") in
  let data_ref := Obj.data (Obj.database self) in
  let agent := {| database := {| data := Obj.contents h data_ref |} |} in
  ∃ out h1 h2 agg,
    Obj._find_loans 3 "loans of women" self h = Some (out, h1)
    ∧ Obj._find_loans 3 "loans of women" self h1 = Some (out, h2)
    ∧ Obj._aggregate_loans pandas_agg "loans of women" self h = (agg, h)
    ∧ Obj._aggregate_loans pandas_agg "loans of women" self h1 = (agg, h1)
    ∧ (∀ l, is_Some (h !! l) → h1 !! l = h !! l ∧ h2 !! l = h !! l)
    ∧ Obj.contents h1 data_ref = Obj.contents h data_ref
    ∧ Obj.contents h2 data_ref = Obj.contents h data_ref
    ∧ out = (_find_loans "loans of women" agent).1
    ∧ agg = (_aggregate_loans pandas_agg "loans of women" agent).1.
Proof.
  cbv zeta.
  apply (tools_are_repeatable (λ _ _ _, Raise (ValueError ""))
           "loans of women"
           {| Obj.database := {| Obj.data := 1%positive |} |} _
           [2%positive; 3%positive] 3).
  - reflexivity.
  - simpl. lia.
Defined.

(** C2 (as stated) fails: a match stage with the operator [$ne] is
    passed over and [aggregate] raises nothing. *)
Lemma unknown_operator_not_reported :
  ¬ (∀ pandas_agg self pipeline,
       has_unknown_symbol pipeline →
       ∃ e, aggregate pandas_agg self pipeline = Raise e).
Proof.
  intros H.
  destruct (H (λ _ _ _, Raise (ValueError "")) scenario_store
              [Match [("region", Ops [("$ne", VStr "North")])]]) as [e He].
  - left. exists [("region", Ops [("$ne", VStr "North")])], "region",
      [("$ne", VStr "North")], "$ne", (VStr "North").
    repeat split; try apply list_elem_of_here.
  - assert (Hok : raised (aggregate (λ _ _ _, Raise (ValueError "")) scenario_store
                    [Match [("region", Ops [("$ne", VStr "North")])]]) = false)
      by (vm_compute; reflexivity).
    rewrite He in Hok. discriminate Hok.
Qed.

(** C10. For every query the pipeline is a single group stage, or a
    non-empty match stage followed by a single group stage: it is never
    empty, its last stage is a group stage, and a match stage comes
    first when there is one. *)
Theorem build_pipeline_shape (q : string) :
  ∃ id aggs,
    _build_pipeline q = [Group id aggs]
    ∨ ∃ conds, conds ≠ [] ∧ _build_pipeline q = [Match conds; Group id aggs].
Proof.
  unfold _build_pipeline. cbv zeta.
  generalize (match_stage_of q) (lower q). intros ms ql.
  destruct ms as [|c ms]; split_on_words ql; simpl.
  all: try (do 2 eexists; left; reflexivity).
  all: try (do 2 eexists; right; eexists; split; [ | reflexivity ]; discriminate).
Qed.

(** * Further properties of the extractor, the store and the interpreter *)

(** ** Substrings *)

Lemma starts_with_spec p l : starts_with p l = true ↔ ∃ r, l = p ++ r.
Proof.
  revert l. induction p as [|c p IH]; intros l; simpl.
  - split; [by exists l|done].
  - destruct l as [|a l].
    + split; [done|]. by intros [r Hr].
    + rewrite andb_true_iff, bool_decide_eq_true, IH. split.
      * intros [-> [r ->]]. by exists r.
      * intros [r [= -> ->]]. eauto.
Qed.

Lemma contains_chars_spec p l :
  contains_chars p l = true ↔ ∃ l1 l2, l = l1 ++ p ++ l2.
Proof.
  induction l as [|a l IH]; simpl; rewrite orb_true_iff, starts_with_spec.
  - split.
    + intros [[r Hr]|?]; [|done]. by exists [], r.
    + intros (l1 & l2 & H). left.
      destruct l1; [by exists l2|done].
  - rewrite IH. split.
    + intros [[r Hr]|(l1 & l2 & ->)]; [by exists [], r|by exists (a :: l1), l2].
    + intros (l1 & l2 & H). destruct l1 as [|b l1]; [left; by exists l2|].
      right. injection H as -> ->. eauto.
Qed.

Lemma contains_spec p s : contains p s = true ↔ substring p s.
Proof. apply contains_chars_spec. Qed.

Lemma substring_trans a b c : substring a b → substring b c → substring a c.
Proof.
  intros (l1 & l2 & Hb) (l3 & l4 & Hc). exists (l3 ++ l1), (l2 ++ l4).
  by rewrite Hc, Hb, <- !(assoc_L (++)).
Qed.

Lemma contains_false p s : ¬ substring p s → contains p s = false.
Proof.
  intros H. destruct (contains p s) eqn:E; [|done].
  by apply contains_spec in E.
Qed.

(** ** Lookups in the dicts that the extractor fills *)

Lemma parse_filters_sex q : _parse_filters q !! "sex" = VStr <$> sex_of q.
Proof.
  unfold _parse_filters.
  destruct (Re.search user_name_re q NOFLAG), (Re.search region_re q IGNORECASE),
    (Re.search currency_re q NOFLAG), (sex_of q); simpl;
    by rewrite ?lookup_insert_eq, ?lookup_insert_ne, ?lookup_empty
      by discriminate.
Qed.

Lemma match_stage_get_region q :
  dict_get "region" (match_stage_of q)
  = (λ m, Direct (VStr (capitalize (Re.group m 1))))
      <$> Re.search region_re q IGNORECASE.
Proof.
  unfold match_stage_of.
  destruct (Re.search region_re q IGNORECASE), (Re.search currency_re q NOFLAG),
    (sex_of q), (Re.search date_re q IGNORECASE); try case_decide; reflexivity.
Qed.

Lemma match_stage_get_currency q :
  dict_get "currency" (match_stage_of q)
  = (λ m, Direct (VStr (upper (Re.group m 1))))
      <$> Re.search currency_re q NOFLAG.
Proof.
  unfold match_stage_of.
  destruct (Re.search region_re q IGNORECASE), (Re.search currency_re q NOFLAG),
    (sex_of q), (Re.search date_re q IGNORECASE); try case_decide; reflexivity.
Qed.

Lemma match_stage_get_sex q :
  dict_get "sex" (match_stage_of q) = (λ s, Direct (VStr s)) <$> sex_of q.
Proof.
  unfold match_stage_of.
  destruct (Re.search region_re q IGNORECASE), (Re.search currency_re q NOFLAG),
    (sex_of q), (Re.search date_re q IGNORECASE); try case_decide; reflexivity.
Qed.

Lemma match_stage_get_date q :
  dict_get "disbursed_date" (match_stage_of q)
  = (λ m, Ops [(if decide (lower (Re.group m 1) = "before")
                then "$lt" else "$gte",
                VStr (first_of_year (Re.group m 2)))])
      <$> Re.search date_re q IGNORECASE.
Proof.
  unfold match_stage_of.
  destruct (Re.search region_re q IGNORECASE), (Re.search currency_re q NOFLAG),
    (sex_of q), (Re.search date_re q IGNORECASE); simpl; try case_decide;
    reflexivity.
Qed.

(** ** The sex rule *)

Lemma women_has_men s : substring "women" s → substring "men" s.
Proof. apply substring_trans. by exists (chars "wo"), []. Qed.

Lemma female_has_male s : substring "female" s → substring "male" s.
Proof. apply substring_trans. by exists (chars "fe"), []. Qed.

(** X1. Both extractors set [sex] to "Female" exactly when the
    lower-cased query holds "women" or "female", to "Male" exactly when
    it holds "men" or "male" but neither of the female words, and leave
    it out exactly when it holds neither "men" nor "male" (every female
    word holds a male word, so only the order of the tests keeps such a
    query from "Male"). *)
Theorem sex_rule (q : string) :
  let female := substring "women" (lower q) ∨ substring "female" (lower q) in
  let male := substring "men" (lower q) ∨ substring "male" (lower q) in
  (female ↔ _parse_filters q !! "sex" = Some (VStr "Female"))
  ∧ (male ∧ ¬ female ↔ _parse_filters q !! "sex" = Some (VStr "Male"))
  ∧ (¬ male ↔ _parse_filters q !! "sex" = None)
  ∧ dict_get "sex" (match_stage_of q) = Direct <$> _parse_filters q !! "sex".
Proof.
  cbv zeta. rewrite parse_filters_sex, match_stage_get_sex. unfold sex_of.
  rewrite <- !contains_spec.
  pose proof (women_has_men (lower q)) as Hw.
  pose proof (female_has_male (lower q)) as Hf.
  rewrite <- !contains_spec in Hw, Hf.
  destruct (contains "women" (lower q)), (contains "female" (lower q)),
    (contains "men" (lower q)), (contains "male" (lower q));
    simpl in *; try (by specialize (Hw eq_refl)); try (by specialize (Hf eq_refl));
    clear Hw Hf; (split; [|split; [|split]]); try reflexivity;
    (split; [intros H|intros H]); try done; try tauto; try (by left);
    try (by right); try (split; [tauto|intros [?|?]; done]);
    try (intros [?|?]; done).
  all: try (destruct H as [? []]; tauto).
  all: by destruct H.
Qed.

(** ** The four patterns and their phrases *)

Lemma region_phrase_read s m :
  Re.match_here true region_re s = Some m →
  ∃ word, region_phrase s word ∧ m !! 1 = Some word.
Proof.
  intros H.
  destruct (ReFacts.match_here_sound _ _ _ _ H) as (x & rest & -> & HM).
  unfold region_re in HM. read_match.
  repeat match goal with
    | H : Forall2 _ _ _ |- _ => apply lit_nocase in H
    | H : Forall (λ a, Is_true (Re.in_class true is_space a)) _ |- _ =>
        setoid_rewrite in_class_space in H
    | H : Forall (λ a, Is_true (Re.in_class true is_word a)) _ |- _ =>
        setoid_rewrite in_class_word in H
    end.
  eexists. split; [|by rewrite lookup_insert_eq].
  unfold region_phrase. rewrite <- !(assoc_L (++)).
  do 5 eexists. split; [reflexivity|]. done.
Qed.

Lemma region_phrase_found s word :
  region_phrase s word → is_Some (Re.match_here true region_re s).
Proof.
  intros (kw & ws1 & ws2 & lit & rest & -> & Hkw & H1 & H2 & H3 & H4 & H5 & H6 & Hl).
  replace (kw ++ ws1 ++ word ++ ws2 ++ lit ++ rest)
    with ((kw ++ ws1 ++ word ++ ws2 ++ lit) ++ rest)
    by (by rewrite <- !(assoc_L (++))).
  eapply (ReFacts.match_here_complete _ _ _ _ (<[1 := word]> ∅)).
  unfold region_re.
  eapply Matches_seq; [reflexivity|by apply M_Lit, lit_nocase_intro|].
  eapply Matches_seq; [reflexivity|by apply plus_of_class|].
  eapply Matches_seq; [reflexivity|apply M_Group; by apply plus_of_class|].
  eapply Matches_seq; [reflexivity|by apply plus_of_class|].
  by apply M_Lit, lit_nocase_intro.
Qed.

Lemma currency_phrase_read s m :
  Re.match_here false currency_re s = Some m →
  ∃ code, currency_phrase s code ∧ m !! 1 = Some code.
Proof.
  intros H.
  destruct (ReFacts.match_here_sound _ _ _ _ H) as (x & rest & -> & HM).
  unfold currency_re in HM. read_match.
  repeat match goal with
    | H : Forall2 _ _ _ |- _ => apply lit_exact in H as ->
    | H : Forall (λ a, Is_true (Re.in_class false _ a)) _ |- _ =>
        setoid_rewrite in_class_exact in H
    end.
  eexists. split; [|by rewrite lookup_insert_eq].
  unfold currency_phrase. rewrite <- !(assoc_L (++)).
  do 2 eexists. split; [reflexivity|]. done.
Qed.

Lemma currency_phrase_found s code :
  currency_phrase s code → is_Some (Re.match_here false currency_re s).
Proof.
  intros (ws & rest & -> & H1 & H2 & H3 & H4). by apply currency_found.
Qed.

Lemma upper_char_not_lower a : is_lower (upper_char a) = false.
Proof. by_cases_on_char a. Qed.

Lemma lower_char_not_upper a : is_upper (lower_char a) = false.
Proof. by_cases_on_char a. Qed.

Lemma upper_char_of_upper a : is_upper a → upper_char a = a.
Proof. by_cases_on_char a. Qed.

Lemma map_upper_of_upper l :
  Forall (λ a, is_upper a) l → map upper_char l = l.
Proof.
  induction 1 as [|a l Ha _ IH]; simpl; [done|].
  by rewrite IH, upper_char_of_upper.
Qed.

Lemma lower_upper_char a : lower_char (upper_char a) = lower_char a.
Proof. by_cases_on_char a. Qed.

Lemma lower_lower_char a : lower_char (lower_char a) = lower_char a.
Proof. by_cases_on_char a. Qed.

Lemma capitalize_chars a l :
  chars (capitalize (text (a :: l))) = upper_char a :: map lower_char l.
Proof. unfold capitalize. by rewrite !chars_text. Qed.

(** ** The name rule *)

(** X2. For a query of ASCII characters, [_parse_filters] leaves
    [user_name] out exactly when the query nowhere holds "for", white
    space, a run of letters and white space, and then the end of the
    text, a question mark or white space.  When it sets the key, the
    value comes from the leftmost such place and from the greedy split
    there (the longest white space after which a name can be read, then
    the longest name): it is that name without the white space at its two
    ends, a string of letters and white space only.  That place and that
    split decide the value: whichever way they are found, the key holds
    the trimmed name. *)
Theorem user_name_rule (q : string) :
  isascii q = true →
  (_parse_filters q !! "user_name" = None
   ↔ ¬ ∃ pre s name, chars q = pre ++ s ∧ name_phrase s name)
  ∧ (∀ v, _parse_filters q !! "user_name" = Some v →
      ∃ pre t ws name,
        chars q = pre ++ chars "for" ++ t
        ∧ none_before name_phrase (chars q) pre
        ∧ greedy_split t ws name
        ∧ v = VStr (strip (text name))
        ∧ trimmed_of name (chars (strip (text name)))
        ∧ Forall (λ a, is_name_char a) (chars (strip (text name))))
  ∧ (∀ pre t ws name,
      chars q = pre ++ chars "for" ++ t →
      none_before name_phrase (chars q) pre →
      greedy_split t ws name →
      _parse_filters q !! "user_name" = Some (VStr (strip (text name)))).
Proof.
  intros _. rewrite parse_filters_user_name.
  destruct (user_name_search q) as (Hnone & Hsome & Hdet).
  split; [|split].
  - rewrite <- Hnone. by destruct (Re.search user_name_re q NOFLAG).
  - intros v Hv.
    destruct (Re.search user_name_re q NOFLAG) as [m|] eqn:E; [|done].
    injection Hv as <-.
    destruct (Hsome m eq_refl) as (pre & t & ws & name & Hq & Hb & Hg & Hcap).
    exists pre, t, ws, name. unfold Re.group. rewrite Hcap. simpl.
    repeat (split; [done|]).
    pose proof (strip_trims name) as Htrim. split; [done|].
    destruct Hg as [(post & _ & _ & _ & _ & Hn & _) _].
    set (v := chars (strip (text name))) in *.
    destruct Htrim as (a & b & Hname & _).
    rewrite Hname in Hn. by apply Forall_app in Hn as [_ [Hn _]%Forall_app].
  - intros pre t ws name Hq Hb Hg.
    destruct (Hdet _ _ _ _ Hq Hb Hg) as (m & -> & Hcap).
    simpl. unfold Re.group. by rewrite Hcap.
Qed.

Lemma user_name_rule_witness :
  (_parse_filters "loans for Ana Gomez?" !! "user_name" = None
   ↔ ¬ ∃ pre s name,
         chars "loans for Ana Gomez?" = pre ++ s ∧ name_phrase s name)
  ∧ (∀ v, _parse_filters "loans for Ana Gomez?" !! "user_name" = Some v →
      ∃ pre t ws name,
        chars "loans for Ana Gomez?" = pre ++ chars "for" ++ t
        ∧ none_before name_phrase (chars "loans for Ana Gomez?") pre
        ∧ greedy_split t ws name
        ∧ v = VStr (strip (text name))
        ∧ trimmed_of name (chars (strip (text name)))
        ∧ Forall (λ a, is_name_char a) (chars (strip (text name))))
  ∧ (∀ pre t ws name,
      chars "loans for Ana Gomez?" = pre ++ chars "for" ++ t →
      none_before name_phrase (chars "loans for Ana Gomez?") pre →
      greedy_split t ws name →
      _parse_filters "loans for Ana Gomez?" !! "user_name"
      = Some (VStr (strip (text name)))).
Proof. apply (user_name_rule "loans for Ana Gomez?"). reflexivity. Defined.

(** ** The region rule *)

(** X3. For a query of ASCII characters, [_parse_filters] leaves
    [region] out exactly when the query nowhere holds "in" (any letter
    case), white space, a word, white space and "region" (any letter
    case).  When it sets the key, the value
    is the word of the leftmost such place in title case, whatever the
    case of the word in the query: first character not a lower-case
    letter, no upper-case letter after it, and equal to the word up to
    letter case. *)
Theorem region_rule (q : string) :
  isascii q = true →
  (_parse_filters q !! "region" = None
   ↔ ¬ ∃ pre s word, chars q = pre ++ s ∧ region_phrase s word)
  ∧ (∀ v, _parse_filters q !! "region" = Some v →
      ∃ pre s word value,
        chars q = pre ++ s ∧ region_phrase s word
        ∧ none_before region_phrase (chars q) pre
        ∧ v = VStr value
        ∧ title_case value
        ∧ map lower_char (chars value) = map lower_char word).
Proof.
  intros _. rewrite parse_filters_region.
  destruct (search_by_phrase true region_re region_phrase
              (λ m x, m !! 1 = Some x) q region_phrase_read region_phrase_found)
    as [Hnone Hsome].
  fold IGNORECASE in Hnone, Hsome.
  destruct (Re.search region_re q IGNORECASE) as [m|] eqn:E; simpl.
  - split.
    + split; [done|]. intros Hn. by apply Hnone in Hn.
    + intros v [= <-].
      destruct (Hsome m eq_refl) as (pre & s & word & Hq & Hp & Hb & Hm).
      exists pre, s, word, (capitalize (text word)).
      repeat split; try done.
      { unfold Re.group. by rewrite Hm. }
      all: destruct Hp as (? & ? & ? & ? & ? & _ & _ & _ & _ & Hne & _).
      all: destruct word as [|a l]; [done|]; unfold title_case;
        rewrite capitalize_chars.
      * exists (upper_char a), (map lower_char l).
        repeat split; [apply upper_char_not_lower|].
        apply Forall_forall. intros c (c' & -> & _)%list_elem_of_fmap.
        apply lower_char_not_upper.
      * simpl. rewrite lower_upper_char. f_equal.
        rewrite <- list_fmap_compose. apply list_fmap_ext.
        intros _ c _. apply lower_lower_char.
  - split; [|done]. split; [intros _|done]. by apply Hnone.
Qed.

Lemma region_rule_witness :
  (_parse_filters "loans in north Region" !! "region" = None
   ↔ ¬ ∃ pre s word,
         chars "loans in north Region" = pre ++ s ∧ region_phrase s word)
  ∧ (∀ v, _parse_filters "loans in north Region" !! "region" = Some v →
      ∃ pre s word value,
        chars "loans in north Region" = pre ++ s ∧ region_phrase s word
        ∧ none_before region_phrase (chars "loans in north Region") pre
        ∧ v = VStr value
        ∧ title_case value
        ∧ map lower_char (chars value) = map lower_char word).
Proof. apply (region_rule "loans in north Region"). reflexivity. Defined.

(** ** The currency rule *)

(** X4. For a query of ASCII characters, [_parse_filters] leaves
    [currency] out exactly when the query nowhere holds "in" (lower
    case), white space and three upper-case letters.  When it sets the key, the value is the three letters of the
    leftmost such place, whatever follows them (more letters, or the word
    "region"). *)
Theorem currency_rule (q : string) :
  isascii q = true →
  (_parse_filters q !! "currency" = None
   ↔ ¬ ∃ pre s code, chars q = pre ++ s ∧ currency_phrase s code)
  ∧ (∀ v, _parse_filters q !! "currency" = Some v →
      ∃ pre s code,
        chars q = pre ++ s ∧ currency_phrase s code
        ∧ none_before currency_phrase (chars q) pre
        ∧ v = VStr (text code)).
Proof.
  intros _. rewrite parse_filters_currency.
  destruct (search_by_phrase false currency_re currency_phrase
              (λ m x, m !! 1 = Some x) q currency_phrase_read
              currency_phrase_found)
    as [Hnone Hsome].
  fold NOFLAG in Hnone, Hsome.
  destruct (Re.search currency_re q NOFLAG) as [m|] eqn:E; simpl.
  - split.
    + split; [done|]. intros Hn. by apply Hnone in Hn.
    + intros v [= <-].
      destruct (Hsome m eq_refl) as (pre & s & code & Hq & Hp & Hb & Hm).
      exists pre, s, code. repeat split; try done.
      unfold Re.group. rewrite Hm. simpl. unfold upper. rewrite chars_text.
      do 2 f_equal.
      destruct Hp as (_ & _ & _ & _ & _ & _ & Hup).
      by apply map_upper_of_upper.
  - split; [|done]. split; [intros _|done]. by apply Hnone.
Qed.

Lemma currency_rule_witness :
  (_parse_filters "total in EUROS" !! "currency" = None
   ↔ ¬ ∃ pre s code,
         chars "total in EUROS" = pre ++ s ∧ currency_phrase s code)
  ∧ (∀ v, _parse_filters "total in EUROS" !! "currency" = Some v →
      ∃ pre s code,
        chars "total in EUROS" = pre ++ s ∧ currency_phrase s code
        ∧ none_before currency_phrase (chars "total in EUROS") pre
        ∧ v = VStr (text code)).
Proof. apply (currency_rule "total in EUROS"). reflexivity. Defined.

(** ** The two extractors side by side *)

(** X5. The match stage of the pipeline holds the same [region],
    [currency] and [sex] conditions as the filter map of the find path
    and nothing else from it: it never filters by [user_name], and the
    filter map never holds [disbursed_date]. *)
Theorem extractors_agree (q : string) :
  dict_get "region" (match_stage_of q) = Direct <$> _parse_filters q !! "region"
  ∧ dict_get "currency" (match_stage_of q)
    = Direct <$> _parse_filters q !! "currency"
  ∧ dict_get "sex" (match_stage_of q) = Direct <$> _parse_filters q !! "sex"
  ∧ dict_get "user_name" (match_stage_of q) = None
  ∧ _parse_filters q !! "disbursed_date" = None.
Proof.
  rewrite parse_filters_region, parse_filters_currency, parse_filters_sex,
    match_stage_get_region, match_stage_get_currency, match_stage_get_sex.
  rewrite <- !option_fmap_compose.
  repeat split; try done.
  - unfold match_stage_of.
    destruct (Re.search region_re q IGNORECASE),
      (Re.search currency_re q NOFLAG), (sex_of q),
      (Re.search date_re q IGNORECASE); try case_decide; reflexivity.
  - unfold _parse_filters.
    destruct (Re.search user_name_re q NOFLAG),
      (Re.search region_re q IGNORECASE),
      (Re.search currency_re q NOFLAG), (sex_of q); simpl;
      by rewrite ?lookup_insert_ne, ?lookup_empty by discriminate.
Qed.

(** ** The date rule *)

Lemma dated_phrase_read s m :
  Re.match_here true date_re s = Some m →
  ∃ ky, dated_phrase s ky ∧ (m !! 1 = Some ky.1 ∧ m !! 2 = Some ky.2).
Proof.
  intros H.
  destruct (ReFacts.match_here_sound _ _ _ _ H) as (x & rest & -> & HM).
  unfold date_re in HM. read_match.
  all: match goal with H : Forall2 _ _ _ |- _ => apply lit_nocase in H end.
  all: repeat match goal with
         | H : Forall (λ a, Is_true (Re.in_class true is_space a)) _ |- _ =>
             setoid_rewrite in_class_space in H
         | H : Forall (λ a, Is_true (Re.in_class true is_digit a)) _ |- _ =>
             setoid_rewrite in_class_digit in H
         end.
  all: match goal with
       | |- context [<[2 := ?y]> (<[1 := ?k]> ∅)] => exists (k, y)
       end.
  all: (split; [|by rewrite lookup_insert_ne, !lookup_insert_eq]).
  all: unfold dated_phrase; simpl; rewrite <- !(assoc_L (++)).
  all: do 2 eexists; (split; [reflexivity|]); split; [|done].
  - by left.
  - by right.
Qed.

Lemma dated_phrase_found s ky :
  dated_phrase s ky → is_Some (Re.match_here true date_re s).
Proof.
  intros (ws & rest & -> & Hkw & H1 & H2 & H3 & H4). by rewrite date_here.
Qed.

Lemma chars_app a b : chars (a +:+ b) = chars a ++ chars b.
Proof.
  unfold chars. induction a as [|c a IH]; simpl; [done|]. by rewrite IH.
Qed.

Lemma length_string_of_uint d :
  length (chars (NilEmpty.string_of_uint d)) = Decimal.nb_digits d.
Proof. unfold chars. induction d; simpl; by rewrite ?IHd. Qed.

(** A year written with a leading zero is printed with fewer than four
    digits. *)
Lemma year_with_leading_zero l :
  length l = 3 → Forall (λ a, is_digit a) l →
  length (chars (str_of_int (int_of_digits (text ("0"%char :: l))))) ≤ 3.
Proof.
  intros Hlen Hl. destruct (digits_parse l Hl) as [d Hd].
  unfold str_of_int, int_of_digits. simpl. rewrite Hd. simpl.
  rewrite Unsigned.to_of.
  change (Decimal.unorm (Decimal.D0 d)) with (Decimal.unorm d).
  assert (Hn : Decimal.nb_digits d = 3).
  { rewrite <- length_string_of_uint, (NilEmpty.sus _ _ Hd).
    by rewrite chars_text. }
  assert (Hd0 : d ≠ Decimal.Nil) by (intros ->; discriminate Hn).
  pose proof (nb_digits_unorm d Hd0) as Hle.
  destruct (Decimal.unorm d) eqn:E; simpl in Hle |- *;
    rewrite ?length_string_of_uint; lia.
Qed.

(** X6. For a query of ASCII characters, the match stage leaves
    [disbursed_date] out exactly when the query nowhere holds "before" or
    "after" (any letter case), white space and four digits.  Otherwise its condition comes from the
    leftmost such place: the operator is [$lt] for "before" and [$gte]
    for "after", and the operand is the year read as a number, printed,
    and followed by "-01-01"; that is "YYYY-01-01" unless the year starts
    with 0, and then the operand is shorter than an ISO date. *)
Theorem date_rule (q : string) :
  isascii q = true →
  (dict_get "disbursed_date" (match_stage_of q) = None
   ↔ ¬ ∃ pre s ky, chars q = pre ++ s ∧ dated_phrase s ky)
  ∧ (∀ c, dict_get "disbursed_date" (match_stage_of q) = Some c →
      ∃ pre s kw year op operand,
        chars q = pre ++ s ∧ dated_phrase s (kw, year)
        ∧ none_before dated_phrase (chars q) pre
        ∧ c = Ops [(op, VStr operand)]
        ∧ (map lower_char kw = chars "before" → op = "$lt")
        ∧ (map lower_char kw = chars "after" → op = "$gte")
        ∧ operand = first_of_year (text year)
        ∧ (head year ≠ Some "0"%char → operand = text year +:+ "-01-01")
        ∧ (head year = Some "0"%char → length (chars operand) < 10)).
Proof.
  intros _. rewrite match_stage_get_date.
  destruct (search_by_phrase true date_re dated_phrase
              (λ m ky, m !! 1 = Some ky.1 ∧ m !! 2 = Some ky.2) q
              dated_phrase_read dated_phrase_found)
    as [Hnone Hsome].
  fold IGNORECASE in Hnone, Hsome.
  destruct (Re.search date_re q IGNORECASE) as [m|] eqn:E; simpl.
  - split.
    + split; [done|]. intros Hn. by apply Hnone in Hn.
    + intros c [= <-].
      destruct (Hsome m eq_refl)
        as (pre & s & [kw year] & Hq & Hp & Hb & Hm1 & Hm2).
      simpl in Hm1, Hm2.
      assert (Hg1 : Re.group m 1 = text kw) by (unfold Re.group; by rewrite Hm1).
      assert (Hg2 : Re.group m 2 = text year)
        by (unfold Re.group; by rewrite Hm2).
      rewrite Hg1, Hg2.
      assert (Hl : lower (text kw) = text (map lower_char kw))
        by (unfold lower; by rewrite chars_text).
      rewrite Hl.
      exists pre, s, kw, year. do 2 eexists.
      split; [done|]. split; [done|]. split; [done|].
      split; [reflexivity|].
      destruct Hp as (ws & rest & _ & Hkw & _ & _ & Hlen & Hdig). simpl in *.
      repeat split.
      * intros Hbf. rewrite Hbf. by rewrite decide_True.
      * intros Haf. rewrite Haf. by rewrite decide_False.
      * intros Hnz. unfold first_of_year.
        destruct year as [|d year]; [done|].
        apply Forall_cons in Hdig as [Hd Hdig].
        rewrite str_of_int_of_digits; [done|done| |done].
        intros ->. by apply Hnz.
      * intros Hz. unfold first_of_year. rewrite chars_app, length_app.
        destruct year as [|d year]; [done|]. injection Hz as ->.
        apply Forall_cons in Hdig as [_ Hdig].
        pose proof (year_with_leading_zero year ltac:(simpl in Hlen; lia) Hdig).
        simpl (length (chars "-01-01")). lia.
  - split; [|done]. split; [intros _|done]. by apply Hnone.
Qed.

Lemma date_rule_witness :
  (dict_get "disbursed_date" (match_stage_of "loans After 0999") = None
   ↔ ¬ ∃ pre s ky, chars "loans After 0999" = pre ++ s ∧ dated_phrase s ky)
  ∧ (∀ c, dict_get "disbursed_date" (match_stage_of "loans After 0999")
          = Some c →
      ∃ pre s kw year op operand,
        chars "loans After 0999" = pre ++ s ∧ dated_phrase s (kw, year)
        ∧ none_before dated_phrase (chars "loans After 0999") pre
        ∧ c = Ops [(op, VStr operand)]
        ∧ (map lower_char kw = chars "before" → op = "$lt")
        ∧ (map lower_char kw = chars "after" → op = "$gte")
        ∧ operand = first_of_year (text year)
        ∧ (head year ≠ Some "0"%char → operand = text year +:+ "-01-01")
        ∧ (head year = Some "0"%char → length (chars operand) < 10)).
Proof. apply (date_rule "loans After 0999"). reflexivity. Defined.

(** ** The choice of the group stage *)

Lemma build_pipeline_cases q :
  ∃ g, g ∈ built_groups
       ∧ _build_pipeline q
         = match match_stage_of q with
           | [] => []
           | _ :: _ => [Match (match_stage_of q)]
           end ++ [g].
Proof.
  unfold _build_pipeline. cbv zeta.
  generalize (match_stage_of q) (lower q). intros ms ql.
  destruct ms as [|c ms]; split_on_words ql; simpl;
    (eexists; split; [|reflexivity]); unfold built_groups;
    repeat (first [apply list_elem_of_here | apply list_elem_of_further]).
Qed.

Ltac solve_kind :=
  match goal with
  | ms : pydict condition |- _ => destruct ms
  end; simpl;
  (eexists; split; [reflexivity|]);
  repeat split; intros; try reflexivity; exfalso; intuition congruence.

(** X7. The aggregation words are tested in a fixed order and the first
    hit decides the last stage: "average"/"avg" gives the average of
    [$loan_amount] whatever else the query holds; else "total"/"sum"
    gives the sum of [$pending] when "pending" occurs and of
    [$loan_amount] otherwise; else "group" with "region" and/or
    "gender"/"sex" gives the grouped stage on those fields; in every
    other case, also for "group" with no field word, the count stage. *)
Theorem aggregation_kind (q : string) :
  let w x := substring x (lower q) in
  let average := w "average" ∨ w "avg" in
  let total := w "total" ∨ w "sum" in
  let by_sex := w "gender" ∨ w "sex" in
  ∃ g, last (_build_pipeline q) = Some g
    ∧ (average → g = average_stage)
    ∧ (¬ average → total → w "pending" → g = total_stage "pending")
    ∧ (¬ average → total → ¬ w "pending" → g = total_stage "loan_amount")
    ∧ (¬ average → ¬ total → w "group" → w "region" → by_sex →
       g = grouped_stage [("region", "$region"); ("sex", "$sex")])
    ∧ (¬ average → ¬ total → w "group" → w "region" → ¬ by_sex →
       g = grouped_stage [("region", "$region")])
    ∧ (¬ average → ¬ total → w "group" → ¬ w "region" → by_sex →
       g = grouped_stage [("sex", "$sex")])
    ∧ (¬ average → ¬ total → ¬ (w "group" ∧ (w "region" ∨ by_sex)) →
       g = count_stage).
Proof.
  cbv beta zeta. setoid_rewrite <- contains_spec.
  unfold _build_pipeline. cbv zeta.
  generalize (match_stage_of q) (lower q). intros ms ql.
  destruct (contains "average" ql), (contains "avg" ql); simpl;
    [solve_kind..|].
  destruct (contains "total" ql), (contains "sum" ql); simpl;
    [destruct (contains "pending" ql); solve_kind..|].
  destruct (contains "group" ql); simpl; [|solve_kind].
  destruct (contains "region" ql), (contains "gender" ql), (contains "sex" ql);
    simpl; solve_kind.
Qed.

(** ** Frames *)

Lemma columns_of_records data c :
  c ∈ Pd.columns (Pd.of_records data) ↔ ∃ r, r ∈ data ∧ is_Some (r !! c).
Proof.
  unfold Pd.of_records. simpl.
  rewrite elem_of_remove_dups, list_elem_of_bind. split.
  - intros (r & Hc & Hr). exists r. split; [done|].
    apply list_elem_of_fmap in Hc as ([k v] & -> & Hkv).
    apply elem_of_map_to_list in Hkv. by exists v.
  - intros (r & Hr & [v Hv]). exists r. split; [|done].
    apply list_elem_of_fmap. exists (c, v). split; [done|].
    by apply elem_of_map_to_list.
Qed.

Lemma where_columns df field op v df' :
  Pd.where_ df field op v = Ok df' → Pd.columns df' = Pd.columns df.
Proof.
  unfold Pd.where_. destruct (Pd.getitem df field); [|done]. simpl.
  destruct (Pd.compare op a v); [|done]. simpl. by intros [= <-].
Qed.

Section InterpreterMore.

Variable pandas_agg :
  Pd.DataFrame → list (option string) → pydict Pd.agg_arg → result Pd.DataFrame.

Lemma apply_op_columns field res entry res' :
  apply_op field res entry = Ok res' → Pd.columns res' = Pd.columns res.
Proof.
  destruct entry as [op v]. unfold apply_op.
  repeat case_decide; try apply where_columns. by intros [= <-].
Qed.

Lemma for_each_columns {A : Type} (body : Pd.DataFrame → A → result Pd.DataFrame)
    l df df' :
  (∀ d x d', body d x = Ok d' → Pd.columns d' = Pd.columns d) →
  for_each body l df = Ok df' → Pd.columns df' = Pd.columns df.
Proof.
  intros Hbody. revert df. induction l as [|x l IH]; intros df; simpl.
  - by intros [= <-].
  - destruct (body df x) as [d|] eqn:E; [|done]. simpl. intros H.
    rewrite (IH _ H). by eapply Hbody.
Qed.

Lemma apply_condition_columns res entry res' :
  apply_condition res entry = Ok res' → Pd.columns res' = Pd.columns res.
Proof.
  destruct entry as [field [v|ops]]; simpl.
  - apply where_columns.
  - apply for_each_columns. intros d x d'. apply apply_op_columns.
Qed.

Lemma match_stage_columns res conds res' :
  run_stage pandas_agg res (Match conds) = Ok res' →
  Pd.columns res' = Pd.columns res.
Proof. simpl. apply for_each_columns, apply_condition_columns. Qed.

(** No group stage that the extractor emits gets past the checks of the
    named aggregation, unless the frame has a column called "sum" or
    "mean". *)
Lemma built_group_raises df g :
  g ∈ built_groups →
  "sum" ∉ Pd.columns df → "mean" ∉ Pd.columns df →
  raised (run_stage pandas_agg df g).
Proof.
  intros Hg Hsum Hmean.
  assert (Hcheck : ∀ group_by aggs,
            raised (Pd.check_named_agg df (build_agg_dict aggs)) →
            raised (run_stage pandas_agg df (Group group_by aggs))).
  { intros group_by aggs Hc. simpl.
    destruct (Pd.groupby df (group_cols_of group_by)); [|done]. simpl.
    by destruct (Pd.check_named_agg df (build_agg_dict aggs)). }
  unfold built_groups in Hg.
  repeat (apply elem_of_cons in Hg as [->|Hg]); [..|by apply elem_of_nil in Hg];
    apply Hcheck;
    match goal with
    | |- context [build_agg_dict ?a] =>
        let d := eval vm_compute in (build_agg_dict a) in
        change (build_agg_dict a) with d
    end; cbn; try done.
  all: by rewrite decide_True.
Qed.

(** X8. On a store whose records have no field called "sum" or "mean",
    the aggregate tool returns the error text for every query: whatever
    pipeline the extractor builds, [aggregate] raises, in the match stage
    or at the latest in the group stage. *)
Theorem aggregate_tool_always_errors (q : string) (agent : QueryAgent) :
  (∀ r, r ∈ data (database agent) → r !! "sum" = None ∧ r !! "mean" = None) →
  ∃ e, _aggregate_loans pandas_agg q agent
       = (ErrorText "Error executing aggregation: " e, agent).
Proof.
  intros Hdata. unfold _aggregate_loans.
  assert (Hraise : raised (aggregate pandas_agg (database agent)
                             (_build_pipeline q))).
  { unfold aggregate.
    assert (Hcols : ∀ c, c = "sum" ∨ c = "mean" →
              c ∉ Pd.columns (Pd.of_records (data (database agent)))).
    { intros c Hc (r & Hr & Hs)%columns_of_records.
      destruct (Hdata r Hr) as [H1 H2].
      destruct Hc as [-> | ->]; [rewrite H1 in Hs | rewrite H2 in Hs];
        by destruct Hs. }
    destruct (build_pipeline_cases q) as (g & Hg & ->).
    set (df := Pd.of_records (data (database agent))) in *.
    assert (Hlast : ∀ d, Pd.columns d = Pd.columns df →
              raised (for_each (run_stage pandas_agg) [g] d
                        ≫= λ res, Ok (Pd.to_dict_records res))).
    { intros d Hd. rewrite for_each_cons.
      pose proof (built_group_raises d g Hg) as Hr. rewrite Hd in Hr.
      specialize (Hr (Hcols _ (or_introl eq_refl)) (Hcols _ (or_intror eq_refl))).
      by destruct (run_stage pandas_agg d g). }
    destruct (match_stage_of q) as [|c ms] eqn:Ems; [by apply Hlast|].
    change ([Match (c :: ms)] ++ [g]) with (Match (c :: ms) :: [g]).
    rewrite for_each_cons.
    destruct (run_stage pandas_agg df (Match (c :: ms))) as [d|e] eqn:E;
      [|done].
    apply Hlast. by eapply match_stage_columns. }
  destruct (aggregate pandas_agg (database agent) (_build_pipeline q));
    [done|by eexists].
Qed.

End InterpreterMore.

Lemma aggregate_tool_always_errors_witness :
  ∃ e, _aggregate_loans (λ _ _ _, Raise (ValueError ""))
         "group loans by region and gender" {| database := scenario_store |}
       = (ErrorText "Error executing aggregation: " e,
          {| database := scenario_store |}).
Proof.
  apply aggregate_tool_always_errors. intros r Hr. simpl in Hr.
  repeat (apply elem_of_cons in Hr as [->|Hr]); [..|by apply elem_of_nil in Hr];
    split; reflexivity.
Defined.

(** ** Composing lookups in the store *)

Lemma agrees_union (f g : gmap string value) (r : record) :
  (∀ k v w, f !! k = Some v → g !! k = Some w → v = w) →
  agrees r (f ∪ g) ↔ agrees r f ∧ agrees r g.
Proof.
  intros Hagree. unfold agrees, map_Forall. split.
  - intros H. split; intros k v Hk; apply H.
    + by apply lookup_union_Some_l.
    + destruct (f !! k) as [w|] eqn:E.
      * rewrite (lookup_union_Some_l _ _ _ _ E). f_equal. by eapply Hagree.
      * by rewrite lookup_union_r.
  - intros [Hf Hg] k v Hk. apply lookup_union_Some_raw in Hk as [Hk|[_ Hk]]; auto.
Qed.

Lemma agrees_subseteq (f g : gmap string value) (r : record) :
  f ⊆ g → agrees r g → agrees r f.
Proof.
  intros Hfg Hg k v Hk. apply Hg.
  by apply (lookup_weaken f g).
Qed.

(** X9. Looking up with a filter [g] among the records found with a
    filter [f] gives what one lookup with both filters gives, as long as
    [f] and [g] ask the same value wherever they name the same field. *)
Theorem find_compose (self : LoanDatabase) (f g : gmap string value) :
  (∀ k v w, f !! k = Some v → g !! k = Some w → v = w) →
  find {| data := find self (Some f) |} (Some g) = find self (Some (f ∪ g)).
Proof.
  intros Hagree. rewrite !find_filter. cbn [data].
  rewrite list_filter_filter. apply list_filter_iff. intros r.
  rewrite agrees_union by done. tauto.
Qed.

Lemma find_compose_witness :
  find {| data := find scenario_store (Some {[ "region" := VStr "Central" ]}) |}
    (Some {[ "sex" := VStr "Female" ]})
  = find scenario_store
      (Some ({[ "region" := VStr "Central" ]} ∪ {[ "sex" := VStr "Female" ]})).
Proof.
  apply find_compose. intros k v w Hv Hw.
  apply lookup_singleton_Some in Hv as [<- _].
  apply lookup_singleton_Some in Hw as [Hk _]. discriminate Hk.
Defined.

(** X10. A filter that asks more finds less: when [g] holds every entry
    of [f], the records found with [g] are, in the same order, among
    those found with [f], and searching with [g] inside the result for
    [f] loses nothing. *)
Theorem find_narrows (self : LoanDatabase) (f g : gmap string value) :
  f ⊆ g →
  sublist (find self (Some g)) (find self (Some f))
  ∧ find {| data := find self (Some f) |} (Some g) = find self (Some g).
Proof.
  intros Hfg.
  assert (Heq : find {| data := find self (Some f) |} (Some g)
                = find self (Some g)).
  { rewrite !find_filter. cbn [data]. rewrite list_filter_filter.
    apply list_filter_iff. intros r. split; [tauto|].
    intros Hg. split; [done|by eapply agrees_subseteq]. }
  split; [|done]. rewrite <- Heq, (find_filter {| data := _ |}).
  apply sublist_filter.
Qed.

Lemma find_narrows_witness :
  sublist
    (find scenario_store
       (Some {[ "region" := VStr "Central"; "sex" := VStr "Female" ]}))
    (find scenario_store (Some {[ "sex" := VStr "Female" ]}))
  ∧ find {| data := find scenario_store (Some {[ "sex" := VStr "Female" ]}) |}
      (Some {[ "region" := VStr "Central"; "sex" := VStr "Female" ]})
    = find scenario_store
        (Some {[ "region" := VStr "Central"; "sex" := VStr "Female" ]}).
Proof.
  apply find_narrows. apply insert_subseteq. reflexivity.
Defined.

(** ** The find path, from the text to the records *)

Lemma lower_chars q : chars (lower q) = map lower_char (chars q).
Proof. unfold lower. by rewrite chars_text. Qed.

Lemma substring_lower (l : list ascii) p q pre post :
  chars q = pre ++ l ++ post → map lower_char l = chars p →
  substring p (lower q).
Proof.
  intros Hq Hl. exists (map lower_char pre), (map lower_char post).
  by rewrite lower_chars, Hq, !map_app, Hl.
Qed.

Lemma parse_filters_keys q k :
  k ∉ ["user_name"; "region"; "currency"; "sex"] → _parse_filters q !! k = None.
Proof.
  intros Hk.
  assert (k ≠ "user_name" ∧ k ≠ "region" ∧ k ≠ "currency" ∧ k ≠ "sex")
    as (H1 & H2 & H3 & H4).
  { repeat split; intros ->; apply Hk;
      repeat (first [apply list_elem_of_here | apply list_elem_of_further]). }
  unfold _parse_filters.
  destruct (Re.search user_name_re q NOFLAG), (Re.search region_re q IGNORECASE),
    (Re.search currency_re q NOFLAG), (sex_of q); simpl;
    by rewrite ?lookup_insert_ne, ?lookup_empty by done.
Qed.

(** X11. For a query of ASCII characters, the find tool returns records
    of the store, in store order.  When the lower-cased query holds
    "women" or "female", every returned record has [sex] "Female".  When
    the query holds no "for" and its lower-cased text holds none of "in",
    "men" and "male", no rule fires and the whole store is returned. *)
Theorem find_tool_follows_the_text (q : string) (agent : QueryAgent) :
  isascii q = true →
  ∃ results,
    _find_loans q agent = (JsonRecords results, agent)
    ∧ sublist results (data (database agent))
    ∧ (substring "women" (lower q) ∨ substring "female" (lower q) →
       ∀ r, r ∈ results → r !! "sex" = Some (VStr "Female"))
    ∧ (¬ substring "for" q → ¬ substring "in" (lower q) →
       ¬ substring "men" (lower q) → ¬ substring "male" (lower q) →
       results = data (database agent)).
Proof.
  intros _. unfold _find_loans. eexists. split; [reflexivity|].
  rewrite find_filter. split; [apply sublist_filter|]. split.
  - intros Hf r [Hr _]%list_elem_of_filter.
    assert (Hs : _parse_filters q !! "sex" = Some (VStr "Female")).
    { rewrite parse_filters_sex. unfold sex_of.
      rewrite <- !contains_spec in Hf.
      by destruct Hf as [-> | ->]; rewrite ?orb_true_r. }
    apply Hr, holds_spec in Hs as (x & Hx & Heq).
    apply py_eq_str in Heq. by subst.
  - intros Hfor Hin Hmen Hmale.
    assert (Hempty : _parse_filters q = ∅).
    { apply map_eq. intros k. rewrite lookup_empty.
      destruct (decide (k ∈ ["user_name"; "region"; "currency"; "sex"]))
        as [Hk|Hk]; [|by apply parse_filters_keys].
      repeat (apply elem_of_cons in Hk as [->|Hk]);
        [..|by apply elem_of_nil in Hk].
      - rewrite parse_filters_user_name.
        destruct (search_by_phrase false user_name_re name_phrase
                    (λ m x, m !! 1 = Some x) q name_phrase_read
                    name_phrase_found) as [Hnone _].
        fold NOFLAG in Hnone. rewrite (proj2 Hnone); [done|].
        intros (pre & s & name & Hq & ws & post & -> & _).
        apply Hfor. exists pre, (ws ++ name ++ post). done.
      - rewrite parse_filters_region.
        destruct (search_by_phrase true region_re region_phrase
                    (λ m x, m !! 1 = Some x) q region_phrase_read
                    region_phrase_found) as [Hnone _].
        fold IGNORECASE in Hnone. rewrite (proj2 Hnone); [done|].
        intros (pre & s & word & Hq & kw & ws1 & ws2 & lit & rest & -> & Hkw & _).
        apply Hin. by eapply substring_lower.
      - rewrite parse_filters_currency.
        destruct (search_by_phrase false currency_re currency_phrase
                    (λ m x, m !! 1 = Some x) q currency_phrase_read
                    currency_phrase_found) as [Hnone _].
        fold NOFLAG in Hnone. rewrite (proj2 Hnone); [done|].
        intros (pre & s & code & Hq & ws & rest & -> & _).
        apply Hin. by eapply (substring_lower (chars "in")).
      - rewrite parse_filters_sex. unfold sex_of.
        rewrite (contains_false "men"), (contains_false "male") by done.
        rewrite (contains_false "women"), (contains_false "female"); [done|..].
        + intros H. by apply Hmale, female_has_male.
        + intros H. by apply Hmen, women_has_men. }
    rewrite Hempty. apply filter_all. intros r _ k v Hk.
    by rewrite lookup_empty in Hk.
Qed.

Lemma find_tool_follows_the_text_witness :
  ∃ results,
    _find_loans "loans of women" {| database := scenario_store |}
    = (JsonRecords results, {| database := scenario_store |})
    ∧ sublist results (data scenario_store)
    ∧ (substring "women" (lower "loans of women")
       ∨ substring "female" (lower "loans of women") →
       ∀ r, r ∈ results → r !! "sex" = Some (VStr "Female"))
    ∧ (¬ substring "for" "loans of women" →
       ¬ substring "in" (lower "loans of women") →
       ¬ substring "men" (lower "loans of women") →
       ¬ substring "male" (lower "loans of women") →
       results = data scenario_store).
Proof.
  apply (find_tool_follows_the_text "loans of women"
           {| database := scenario_store |}).
  reflexivity.
Defined.

(** ** A match stage of equalities and [find] *)

Lemma compare_cell_eq_str c t :
  Pd.compare_cell Pd.EQ c (VStr t) = Ok (bool_decide (c = Some (VStr t))).
Proof.
  destruct c as [[a|n|[]|b|]|]; simpl; f_equal;
    try (symmetry; by apply bool_decide_eq_false_2).
  apply bool_decide_ext. split; congruence.
Qed.

Lemma compare_eq s t :
  Pd.compare Pd.EQ s (VStr t)
  = Ok (map (λ c : Pd.cell, bool_decide (c = Some (VStr t))) s).
Proof.
  induction s as [|c s IH]; [done|].
  cbn [Pd.compare map]. by rewrite compare_cell_eq_str, IH.
Qed.

Lemma keep_filter {A : Type} (P : A → bool) (l : list A) :
  Pd.keep l (map P l) = filter (λ x, P x) l.
Proof.
  induction l as [|x l IH]; [done|]. cbn [map Pd.keep]. rewrite IH.
  destruct (P x) eqn:E.
  - rewrite filter_cons_True; [done|rewrite E; exact I].
  - rewrite filter_cons_False; [done|rewrite E; exact id].
Qed.

Lemma where_eq df field t :
  field ∈ Pd.columns df →
  Pd.where_ df field Pd.EQ (VStr t)
  = Ok {| Pd.columns := Pd.columns df;
          Pd.rows := filter (λ r : record,
                               bool_decide (r !! field = Some (VStr t)))
                       (Pd.rows df) |}.
Proof.
  intros Hf. unfold Pd.where_, Pd.getitem. rewrite bool_decide_eq_true_2 by done.
  simpl. rewrite compare_eq. simpl. unfold Pd.select. do 2 f_equal.
  rewrite map_map. apply keep_filter.
Qed.

Lemma where_missing df field op v :
  field ∉ Pd.columns df → Pd.where_ df field op v = Raise (KeyError field).
Proof.
  intros Hf. unfold Pd.where_, Pd.getitem. by rewrite bool_decide_eq_false_2.
Qed.

Lemma match_equalities (l : list (string * value)) cols rows :
  (∀ kv, kv ∈ l → kv.1 ∈ cols ∧ ∃ t, kv.2 = VStr t) →
  for_each apply_condition (map (λ kv, (kv.1, Direct kv.2)) l)
    {| Pd.columns := cols; Pd.rows := rows |}
  = Ok {| Pd.columns := cols;
          Pd.rows := filter (λ r : record,
                        forallb (λ '(key, value),
                                   match r !! key with
                                   | None => false
                                   | Some v => negb (py_ne v value)
                                   end) l) rows |}.
Proof.
  revert rows. induction l as [|[k v] l IH]; intros rows Hl; simpl.
  - f_equal. f_equal. symmetry. by apply filter_all.
  - destruct (Hl (k, v) (list_elem_of_here _ _)) as [Hk [t Ht]].
    simpl in Hk, Ht. subst v. rewrite where_eq by done. simpl.
    rewrite IH by (intros kv Hkv; by apply Hl, list_elem_of_further).
    do 2 f_equal. rewrite list_filter_filter. apply list_filter_iff.
    intros r. rewrite andb_True.
    assert (Hkt : Is_true (bool_decide (r !! k = Some (VStr t)))
                  ↔ Is_true (match r !! k with
                             | Some w => negb (py_ne w (VStr t))
                             | None => false
                             end)).
    { unfold py_ne. destruct (r !! k) as [w|]; rewrite ?bool_decide_spec; simpl.
      - rewrite negb_involutive, Is_true_true, py_eq_str. split; congruence.
      - split; [done|by intros []]. }
    tauto.
Qed.

Lemma match_missing_key (l : list (string * value)) k v df :
  (∀ kv, kv ∈ l → ∃ t, kv.2 = VStr t) →
  (k, v) ∈ l → k ∉ Pd.columns df →
  ∃ k', for_each apply_condition (map (λ kv, (kv.1, Direct kv.2)) l) df
        = Raise (KeyError k').
Proof.
  revert df. induction l as [|[k' v'] l IH]; intros df Hl Hin Hbad.
  { by apply elem_of_nil in Hin. }
  cbn [map fst snd]. rewrite for_each_cons. cbn [apply_condition].
  destruct (decide (k' ∈ Pd.columns df)) as [Hk'|Hk'].
  - destruct (Hl (k', v') (list_elem_of_here _ _)) as [t Ht]. simpl in Ht.
    subst v'. rewrite where_eq by done.
    apply elem_of_cons in Hin as [[= <- <-]|Hin]; [done|].
    apply IH; [|done..]. intros kv Hkv. by apply Hl, list_elem_of_further.
  - rewrite where_missing by done. by exists k'.
Qed.

Lemma lookup_padded (cols : list string) (r : record) c :
  (list_to_map (map (λ c, (c, r !! c)) cols) : gmap string Pd.cell) !! c
  = if decide (c ∈ cols) then Some (r !! c) else None.
Proof.
  induction cols as [|c' cols IH].
  - destruct (decide (c ∈ [])) as [H|H]; [by apply elem_of_nil in H|done].
  - cbn [map list_to_map foldr uncurry fst snd].
    destruct (decide (c' = c)) as [->|Hne].
    + rewrite lookup_insert_eq.
      destruct (decide (c ∈ c :: cols)) as [H|H]; [done|].
      destruct H. apply list_elem_of_here.
    + rewrite lookup_insert_ne by done.
      change (foldr _ _ _ !! c)
        with ((list_to_map (map (λ c, (c, r !! c)) cols)
                : gmap string Pd.cell) !! c).
      rewrite IH.
      destruct (decide (c ∈ cols)) as [Hc|Hc],
        (decide (c ∈ c' :: cols)) as [Hc'|Hc']; try done.
      * destruct Hc'. by apply list_elem_of_further.
      * apply elem_of_cons in Hc' as [?|?]; congruence.
Qed.

(** A row that comes back holds the strings of the record it was made
    from. *)
Lemma padded_text_fields (cols : list string) (r : record) :
  (∀ c, is_Some (r !! c) → c ∈ cols) →
  row_text_fields (list_to_map (map (λ c, (c, r !! c)) cols)) = text_fields r.
Proof.
  intros Hcols. apply map_eq. intros c. unfold row_text_fields, text_fields.
  rewrite !lookup_omap, lookup_padded.
  destruct (decide (c ∈ cols)) as [Hc|Hc]; simpl.
  - by destruct (r !! c) as [[]|].
  - destruct (r !! c) as [v|] eqn:E; [|done].
    destruct Hc. apply Hcols. by rewrite E.
Qed.

Lemma to_dict_records_rows (df : Pd.DataFrame) :
  Pd.columns df ≠ [] →
  Pd.to_dict_records df
  = map (λ r : record, list_to_map (map (λ c, (c, r !! c)) (Pd.columns df)))
      (Pd.rows df).
Proof. unfold Pd.to_dict_records. by destruct (Pd.columns df). Qed.

Lemma some_column data :
  (∃ r c, r ∈ data ∧ is_Some (r !! c)) → Pd.columns (Pd.of_records data) ≠ [].
Proof.
  intros (r & c & Hr & Hc) E.
  assert (Hin : c ∈ Pd.columns (Pd.of_records data))
    by (apply columns_of_records; eauto).
  rewrite E in Hin. by apply elem_of_nil in Hin.
Qed.

Section MatchAndFind.

Variable pandas_agg :
  Pd.DataFrame → list (option string) → pydict Pd.agg_arg → result Pd.DataFrame.

(** X12. A pipeline made of one match stage that asks for strings keeps
    the records that [find] keeps for the same filter: it gives back one
    row for each of them, in the same order and with the same strings in
    the same fields, provided some record holds a field at all and each
    filter field is a field of some record.  A filter field that no
    record holds, which makes [find] return no record, makes [aggregate]
    raise [KeyError] instead; so does any filter on the empty store. *)
Theorem match_stage_agrees_with_find (self : LoanDatabase)
    (f : gmap string value) :
  text_filter f →
  ((∃ r c, r ∈ data self ∧ is_Some (r !! c)) →
   (∀ k, is_Some (f !! k) → ∃ r, r ∈ data self ∧ is_Some (r !! k)) →
   ∃ rows,
     aggregate pandas_agg self [match_of_filter f] = Ok rows
     ∧ map row_text_fields rows = map text_fields (find self (Some f)))
  ∧ ((∃ k, is_Some (f !! k) ∧ ∀ r, r ∈ data self → r !! k = None) →
     find self (Some f) = []
     ∧ ∃ k, aggregate pandas_agg self [match_of_filter f] = Raise (KeyError k)).
Proof.
  intros Htext.
  assert (Hstr : ∀ kv, kv ∈ map_to_list f → ∃ t, kv.2 = VStr t).
  { intros [k v] Hkv%elem_of_map_to_list. by eapply Htext. }
  split.
  - intros Hsome Hcols. unfold aggregate, match_of_filter.
    rewrite for_each_cons. cbn [run_stage]. unfold Pd.of_records at 1.
    rewrite match_equalities.
    + eexists. split; [reflexivity|].
      rewrite to_dict_records_rows by exact (some_column _ Hsome).
      cbn [Pd.rows Pd.columns].
      rewrite <- list_fmap_compose. apply list_fmap_ext.
      intros i r Hr. apply padded_text_fields.
      intros c Hc. apply columns_of_records. exists r. split; [|done].
      apply list_elem_of_lookup_2 in Hr.
      by apply list_elem_of_filter in Hr as [_ Hr].
    + intros [k v] Hkv. split; [|by apply Hstr].
      apply elem_of_map_to_list in Hkv. apply columns_of_records.
      apply Hcols. by exists v.
  - intros (k & [v Hk] & Hnone). split.
    + rewrite find_filter. revert Hnone.
      induction (data self) as [|r l IH]; intros Hnone; [done|].
      rewrite filter_cons_False.
      * apply IH. intros r' Hr'. by apply Hnone, list_elem_of_further.
      * intros Hag. specialize (Hag k v Hk). unfold holds in Hag.
        by rewrite (Hnone r (list_elem_of_here _ _)) in Hag.
    + unfold aggregate, match_of_filter. rewrite for_each_cons. cbn [run_stage].
      assert (Hin : (k, v) ∈ map_to_list f) by by apply elem_of_map_to_list.
      assert (Hbad : k ∉ Pd.columns (Pd.of_records (data self))).
      { intros (r & Hr & Hs)%columns_of_records.
        rewrite (Hnone r Hr) in Hs. by destruct Hs. }
      destruct (match_missing_key _ _ _ _ Hstr Hin Hbad) as [k' Hk'].
      rewrite Hk'. by exists k'.
Qed.

End MatchAndFind.

Lemma match_stage_agrees_with_find_witness :
  ∃ rows,
    aggregate (λ _ _ _, Raise (ValueError "")) scenario_store
      [match_of_filter {[ "region" := VStr "Central" ]}] = Ok rows
    ∧ map row_text_fields rows
      = map text_fields
          (find scenario_store (Some {[ "region" := VStr "Central" ]})).
Proof.
  refine (proj1 (match_stage_agrees_with_find (λ _ _ _, Raise (ValueError ""))
                   scenario_store {[ "region" := VStr "Central" ]} _) _ _).
  - intros k v Hk. apply lookup_singleton_Some in Hk as [_ <-]. by eexists.
  - exists {[ "region" := VStr "Central"; "sex" := VStr "Female";
              "loan_amount" := VInt 22000 ]}, "region".
    split; [apply list_elem_of_here|by eexists].
  - intros k [v Hk]. apply lookup_singleton_Some in Hk as [<- _].
    exists {[ "region" := VStr "North"; "sex" := VStr "Female";
              "loan_amount" := VInt 5000 ]}.
    split; [|by eexists].
    simpl. do 2 apply list_elem_of_further. apply list_elem_of_here.
Defined.

(** ** From records to a frame and back *)

Section RoundTrip.

Variable pandas_agg :
  Pd.DataFrame → list (option string) → pydict Pd.agg_arg → result Pd.DataFrame.

(** X13. On a store in which some record holds a field, [query] with a
    function that hands the frame back, and [aggregate] with the empty
    pipeline, return one row per record, in store order.  A row holds
    every field that some record of the store holds; it holds a string in
    a field exactly when its record does, and then the same string; a
    field that its record lacks holds the missing value NaN.  When the
    records hold strings only and all have the same fields, the rows are
    the records themselves. *)
Theorem frame_round_trip (self : LoanDatabase) :
  (∃ r c, r ∈ data self ∧ is_Some (r !! c)) →
  ∃ rows,
    query (A := unit) self inl = inl rows
    ∧ aggregate pandas_agg self [] = Ok rows
    ∧ length rows = length (data self)
    ∧ (∀ i r, data self !! i = Some r →
        ∃ row, rows !! i = Some row
          ∧ ∀ c, (is_Some (row !! c)
                  ↔ ∃ r', r' ∈ data self ∧ is_Some (r' !! c))
                 ∧ (∀ t, row !! c = Some (Some (VStr t))
                         ↔ r !! c = Some (VStr t))
                 ∧ (r !! c = None →
                    (∃ r', r' ∈ data self ∧ is_Some (r' !! c)) →
                    row !! c = Some None))
    ∧ ((∀ r c v, r ∈ data self → r !! c = Some v → ∃ t, v = VStr t) →
       (∀ r r', r ∈ data self → r' ∈ data self → dom r = dom r') →
       rows = map (fmap Some) (data self)).
Proof.
  intros Hsome.
  exists (Pd.to_dict_records (Pd.of_records (data self))).
  split; [done|]. split; [done|].
  rewrite to_dict_records_rows by by apply some_column.
  cbn [Pd.rows Pd.of_records].
  set (cols := Pd.columns (Pd.of_records (data self))).
  assert (Hcols : ∀ c, c ∈ cols ↔ ∃ r', r' ∈ data self ∧ is_Some (r' !! c))
    by (intros c; apply columns_of_records).
  split; [by rewrite length_map|]. split.
  - intros i r Hi. eexists. split; [by rewrite list_lookup_fmap, Hi|].
    intros c. rewrite lookup_padded.
    assert (Hown : is_Some (r !! c) → c ∈ cols).
    { intros Hs. apply Hcols. exists r. split; [|done].
      by eapply list_elem_of_lookup_2. }
    destruct (decide (c ∈ cols)) as [Hc|Hc]; (split; [|split]).
    + split; [intros _; by apply Hcols|by eexists].
    + intros t. split; [by intros [= ->]|by intros ->].
    + by intros ->.
    + split; [by intros [? ?]|]. intros H. destruct Hc. by apply Hcols.
    + intros t. split; [done|]. intros Hv. destruct Hc. apply Hown.
      by rewrite Hv.
    + intros _ H. destruct Hc. by apply Hcols.
  - intros _ Hdom. apply list_fmap_ext. intros i r Hi. apply map_eq. intros c.
    rewrite lookup_padded, lookup_fmap.
    destruct (decide (c ∈ cols)) as [Hc|Hc].
    + apply Hcols in Hc as (r' & Hr' & Hs).
      assert (Hr : r ∈ data self) by by eapply list_elem_of_lookup_2.
      apply elem_of_dom in Hs. rewrite <- (Hdom r r' Hr Hr') in Hs.
      apply elem_of_dom in Hs as [v ->]. done.
    + destruct (r !! c) as [v|] eqn:E; [|done].
      destruct Hc. apply Hcols. exists r. split; [|by rewrite E].
      by eapply list_elem_of_lookup_2.
Qed.

End RoundTrip.

Lemma frame_round_trip_witness :
  ∃ rows,
    query (A := unit) scenario_store inl = inl rows
    ∧ aggregate (λ _ _ _, Raise (ValueError "")) scenario_store [] = Ok rows
    ∧ length rows = length (data scenario_store)
    ∧ (∀ i r, data scenario_store !! i = Some r →
        ∃ row, rows !! i = Some row
          ∧ ∀ c, (is_Some (row !! c)
                  ↔ ∃ r', r' ∈ data scenario_store ∧ is_Some (r' !! c))
                 ∧ (∀ t, row !! c = Some (Some (VStr t))
                         ↔ r !! c = Some (VStr t))
                 ∧ (r !! c = None →
                    (∃ r', r' ∈ data scenario_store ∧ is_Some (r' !! c)) →
                    row !! c = Some None))
    ∧ ((∀ r c v, r ∈ data scenario_store → r !! c = Some v →
                 ∃ t, v = VStr t) →
       (∀ r r', r ∈ data scenario_store → r' ∈ data scenario_store →
                dom r = dom r') →
       rows = map (fmap Some) (data scenario_store)).
Proof.
  apply (frame_round_trip (λ _ _ _, Raise (ValueError "")) scenario_store).
  exists {[ "region" := VStr "Central"; "sex" := VStr "Female";
            "loan_amount" := VInt 22000 ]}, "region".
  split; [apply list_elem_of_here|by eexists].
Defined.

(** ** The greeting tool *)

Lemma is_space_lower a : is_space (lower_char a) = is_space a.
Proof. by_cases_on_char a. Qed.

Lemma lstrip_spaces ws l :
  Forall (λ a, is_space a) ws → lstrip (ws ++ l) = lstrip l.
Proof.
  induction 1 as [|a ws Ha _ IH]; simpl; [done|].
  by destruct (is_space a).
Qed.

Lemma lstrip_app_spaces l ws :
  Forall (λ a, is_space a) ws →
  lstrip (l ++ ws) = match lstrip l with [] => [] | _ :: _ => lstrip l ++ ws end.
Proof.
  intros Hws. induction l as [|a l IH]; simpl.
  - rewrite <- (app_nil_r ws). by rewrite lstrip_spaces.
  - by destruct (is_space a).
Qed.

Lemma strip_chars_padded ws1 l ws2 :
  Forall (λ a, is_space a) ws1 → Forall (λ a, is_space a) ws2 →
  strip_chars (ws1 ++ l ++ ws2) = strip_chars l.
Proof.
  intros H1 H2. unfold strip_chars.
  rewrite lstrip_spaces, lstrip_app_spaces by done.
  destruct (lstrip l) as [|a l'] eqn:E; [done|].
  rewrite reverse_app, lstrip_spaces; [done|]. by apply Forall_reverse.
Qed.

(** X14. The greeting tool looks at the text in lower case and without
    the white space around it: putting a text of ASCII characters in
    upper case and padding it with white space changes nothing in the
    answer, and each of "hi", "hello", "hey", "greetings", "howdy"
    written that way gets the greeting reply. *)
Theorem greeting_ignores_case_and_padding (q : string) (ws1 ws2 : list ascii) :
  isascii q = true →
  Forall (λ a, is_space a) ws1 → Forall (λ a, is_space a) ws2 →
  _handle_greeting (text (ws1 ++ chars (upper q) ++ ws2)) = _handle_greeting q
  ∧ (q ∈ greetings →
     greeting_result (_handle_greeting (text (ws1 ++ chars (upper q) ++ ws2)))
     = "Hello! How can I help you with loan data today?").
Proof.
  intros _ H1 H2.
  assert (Hsame : strip (lower (text (ws1 ++ chars (upper q) ++ ws2)))
                  = strip (lower q)).
  { unfold strip. f_equal. rewrite !lower_chars, chars_text, !map_app.
    unfold upper. rewrite chars_text, <- list_fmap_compose.
    rewrite strip_chars_padded.
    - f_equal. apply list_fmap_ext. intros _ a _. apply lower_upper_char.
    - apply Forall_fmap. eapply Forall_impl; [exact H1|].
      intros a Ha. simpl. by rewrite is_space_lower.
    - apply Forall_fmap. eapply Forall_impl; [exact H2|].
      intros a Ha. simpl. by rewrite is_space_lower. }
  assert (Heq : _handle_greeting (text (ws1 ++ chars (upper q) ++ ws2))
                = _handle_greeting q)
    by (unfold _handle_greeting; by rewrite Hsame).
  split; [done|]. intros Hq. rewrite Heq. unfold greetings in Hq.
  repeat (apply elem_of_cons in Hq as [->|Hq]); [..|by apply elem_of_nil in Hq];
    by vm_compute.
Qed.

Lemma greeting_ignores_case_and_padding_witness :
  _handle_greeting (text (chars "  " ++ chars (upper "hello") ++ chars " "))
  = _handle_greeting "hello"
  ∧ ("hello" ∈ greetings →
     greeting_result
       (_handle_greeting (text (chars "  " ++ chars (upper "hello") ++ chars " ")))
     = "Hello! How can I help you with loan data today?").
Proof.
  apply (greeting_ignores_case_and_padding "hello" (chars "  ") (chars " "));
    [reflexivity|repeat constructor..].
Defined.

(** ** What a match stage does to a frame *)

Lemma keep_sublist {A : Type} (l : list A) mask : sublist (Pd.keep l mask) l.
Proof.
  revert mask. induction l as [|x l IH]; intros [|b mask]; simpl;
    try apply sublist_nil_l.
  destruct b; [by apply sublist_skip|by apply sublist_cons].
Qed.

Lemma where_sublist df field op v df' :
  Pd.where_ df field op v = Ok df' → sublist (Pd.rows df') (Pd.rows df).
Proof.
  unfold Pd.where_. destruct (Pd.getitem df field); [|done]. simpl.
  destruct (Pd.compare op a v); [|done]. simpl. intros [= <-].
  apply keep_sublist.
Qed.

Lemma apply_condition_sublist res entry res' :
  apply_condition res entry = Ok res' → sublist (Pd.rows res') (Pd.rows res).
Proof.
  destruct entry as [field [v|ops]]; cbn [apply_condition];
    [apply where_sublist|].
  revert res. induction ops as [|[op w] ops IH]; intros res.
  - by intros [= <-].
  - rewrite for_each_cons.
    destruct (apply_op field res (op, w)) as [d|] eqn:E; [|done].
    intros H. transitivity (Pd.rows d); [by apply IH|].
    unfold apply_op in E. repeat case_decide; try (by eapply where_sublist).
    by injection E as <-.
Qed.

(** A row that [df[df[field] <op> value]] keeps passed the test. *)
Lemma keep_compare op field v (rows : list record) mask r :
  Pd.compare op (map (λ r : record, r !! field) rows) v = Ok mask →
  r ∈ Pd.keep rows mask →
  Pd.compare_cell op (r !! field) v = Ok true.
Proof.
  revert mask. induction rows as [|x rows IH]; intros mask Hc Hr.
  { by apply elem_of_nil in Hr. }
  cbn [map Pd.compare] in Hc.
  destruct (Pd.compare_cell op (x !! field) v) as [b|] eqn:Eb; [|done].
  destruct (Pd.compare op (map (λ r : record, r !! field) rows) v)
    as [m|] eqn:Em; [|done].
  injection Hc as <-. cbn [Pd.keep] in Hr.
  destruct b; [apply elem_of_cons in Hr as [->|Hr]; [done|]|]; by eapply IH.
Qed.

Lemma where_test df field op v df' r :
  Pd.where_ df field op v = Ok df' → r ∈ Pd.rows df' →
  Pd.compare_cell op (r !! field) v = Ok true.
Proof.
  unfold Pd.where_, Pd.getitem. case_bool_decide; [|done]. simpl.
  destruct (Pd.compare op _ v) as [mask|] eqn:E; [|done]. simpl.
  intros [= <-]. cbn [Pd.rows Pd.select]. by eapply keep_compare.
Qed.

(** The test of a cell against a string, operator by operator. *)
Lemma compare_cell_str op c s :
  Pd.compare_cell op c (VStr s) = Ok true →
  ∃ x, c = Some (VStr x)
       ∧ match op with
         | Pd.EQ => x = s
         | Pd.GT => String.ltb s x = true
         | Pd.GE => String.leb s x = true
         | Pd.LT => String.ltb x s = true
         | Pd.LE => String.leb x s = true
         end.
Proof.
  destruct c as [[a|n|[]|b|]|], op; simpl; try discriminate.
  all: intros [= H]; exists a; split; [done|]; try done.
  by apply bool_decide_eq_true in H.
Qed.

Lemma apply_op_test field res op s res' r :
  apply_op field res (op, VStr s) = Ok res' → r ∈ Pd.rows res' →
  known_op op = true →
  ∃ x, r !! field = Some (VStr x) ∧ str_test op x s.
Proof.
  unfold apply_op, str_test. intros H Hr Hop.
  repeat case_decide; subst.
  6: { unfold known_op in Hop. apply bool_decide_eq_true in Hop.
       repeat (apply elem_of_cons in Hop as [?|Hop]; [done|]).
       by apply elem_of_nil in Hop. }
  all: destruct (compare_cell_str _ _ _ (where_test _ _ _ _ _ _ H Hr))
         as (x & Hx & Ht).
  all: exists x; split; [done|]; repeat split; intros; done.
Qed.

Lemma apply_ops_test field ops res res' r op s :
  for_each (apply_op field) ops res = Ok res' → r ∈ Pd.rows res' →
  (op, VStr s) ∈ ops → known_op op = true →
  ∃ x, r !! field = Some (VStr x) ∧ str_test op x s.
Proof.
  revert res. induction ops as [|e ops IH]; intros res H Hr Hin Hop.
  { by apply elem_of_nil in Hin. }
  rewrite for_each_cons in H.
  destruct (apply_op field res e) as [d|] eqn:E; [|done].
  apply elem_of_cons in Hin as [<-|Hin]; [|by eapply IH].
  eapply apply_op_test; [exact E| |done].
  eapply elem_of_sublist; [exact Hr|].
  eapply (apply_condition_sublist d (field, Ops ops)). exact H.
Qed.

Section MatchStage.

Variable pandas_agg :
  Pd.DataFrame → list (option string) → pydict Pd.agg_arg → result Pd.DataFrame.

(** X15. A match stage that does not raise only filters: the frame that
    comes out has the same columns and its rows are rows of the frame
    that went in, in the same order.  Each of them passed every condition
    on a string: for a bare value and for [$eq] its field holds exactly
    the asked string, and for [$gt], [$gte], [$lt], [$lte] it holds a
    string that stands in that order to the operand; a row without the
    field, or with a number in it, is never kept. *)
Theorem match_stage_only_filters (df df' : Pd.DataFrame)
    (conds : pydict condition) :
  run_stage pandas_agg df (Match conds) = Ok df' →
  Pd.columns df' = Pd.columns df
  ∧ sublist (Pd.rows df') (Pd.rows df)
  ∧ ∀ r field, r ∈ Pd.rows df' →
      (∀ s, (field, Direct (VStr s)) ∈ conds → r !! field = Some (VStr s))
      ∧ (∀ ops op s, (field, Ops ops) ∈ conds → (op, VStr s) ∈ ops →
                     known_op op = true →
                     ∃ x, r !! field = Some (VStr x) ∧ str_test op x s).
Proof.
  intros H. split; [by eapply match_stage_columns|].
  cbn [run_stage] in H. revert df H.
  induction conds as [|c conds IH]; intros df H.
  - injection H as <-. split; [done|]. intros r field _.
    split; intros; by match goal with H : _ ∈ [] |- _ => apply elem_of_nil in H end.
  - rewrite for_each_cons in H.
    destruct (apply_condition df c) as [d|] eqn:E; [|done].
    destruct (IH d H) as [Hsub Hall].
    pose proof (apply_condition_sublist _ _ _ E) as Hd.
    split; [by transitivity (Pd.rows d)|].
    intros r field Hr.
    assert (Hrd : r ∈ Pd.rows d) by by eapply elem_of_sublist.
    destruct (Hall r field Hr) as [Hdirect Hops]. split.
    + intros s [Heq|Hin]%elem_of_cons; [subst c|by apply Hdirect].
      cbn [apply_condition] in E.
      destruct (compare_cell_str _ _ _ (where_test _ _ _ _ _ _ E Hrd))
        as (x & Hx & ->). done.
    + intros ops op s [Heq|Hin]%elem_of_cons Hop Hk;
        [subst c|by eapply Hops].
      cbn [apply_condition] in E. by eapply apply_ops_test.
Qed.

(** X16. Stages run strictly from left to right.  One match stage with
    the conditions [c1] followed by [c2] does what two match stages in a
    row do, and a stage dict that holds none of [$match], [$group],
    [$project] (a [$sort] or a [$limit], say) is passed over wherever it
    stands. *)
Theorem pipeline_composes (self : LoanDatabase)
    (p1 p2 : list stage) (c1 c2 : pydict condition) :
  aggregate pandas_agg self (p1 ++ Match (c1 ++ c2) :: p2)
    = aggregate pandas_agg self (p1 ++ Match c1 :: Match c2 :: p2)
  ∧ aggregate pandas_agg self (p1 ++ Other :: p2)
    = aggregate pandas_agg self (p1 ++ p2).
Proof.
  assert (Happ : ∀ {A : Type} (body : Pd.DataFrame → A → result Pd.DataFrame)
                   l1 l2 d,
            for_each body (l1 ++ l2) d
            = for_each body l1 d ≫= for_each body l2).
  { intros A body l1 l2. induction l1 as [|x l1 IH]; intros d; [done|].
    cbn [app]. rewrite !for_each_cons.
    destruct (body d x); [apply IH|done]. }
  unfold aggregate. rewrite !Happ.
  destruct (for_each (run_stage pandas_agg) p1 _) as [d|]; [|done].
  cbn [mbind result_bind]. rewrite !for_each_cons. cbn [run_stage].
  split; [|done]. rewrite Happ.
  by destruct (for_each apply_condition c1 d).
Qed.

End MatchStage.

Lemma match_stage_only_filters_witness :
  let df' := {| Pd.columns := ["sex"; "disbursed_date"];
                Pd.rows := [ {[ "sex" := VStr "Female";
                                "disbursed_date" := VStr "2022-05-17" ]} ] |} in
  let conds := [("sex", Direct (VStr "Female"));
                ("disbursed_date", Ops [("$lt", VStr "2023-01-01")])] in
  Pd.columns df' = ["sex"; "disbursed_date"]
  ∧ sublist (Pd.rows df')
      [ {[ "sex" := VStr "Female"; "disbursed_date" := VStr "2022-05-17" ]};
        {[ "sex" := VStr "Male"; "disbursed_date" := VStr "2022-01-09" ]};
        {[ "sex" := VStr "Female"; "disbursed_date" := VStr "2023-03-01" ]} ]
  ∧ ∀ r field, r ∈ Pd.rows df' →
      (∀ s, (field, Direct (VStr s)) ∈ conds → r !! field = Some (VStr s))
      ∧ (∀ ops op s, (field, Ops ops) ∈ conds → (op, VStr s) ∈ ops →
                     known_op op = true →
                     ∃ x, r !! field = Some (VStr x) ∧ str_test op x s).
Proof.
  cbv zeta.
  apply (match_stage_only_filters (λ _ _ _, Raise (ValueError ""))
           {| Pd.columns := ["sex"; "disbursed_date"];
              Pd.rows :=
                [ {[ "sex" := VStr "Female";
                     "disbursed_date" := VStr "2022-05-17" ]};
                  {[ "sex" := VStr "Male";
                     "disbursed_date" := VStr "2022-01-09" ]};
                  {[ "sex" := VStr "Female";
                     "disbursed_date" := VStr "2023-03-01" ]} ] |}).
  vm_compute. reflexivity.
Defined.
